(** * nitric CLI: code-as-config capture server, image build passes and
      table output, embedded from the Go sources.

    - [pb]          the protobuf messages the capture server exchanges
    - [codeconfig]  [Server.TriggerStream], [Server.Declare], [Server.Details]
    - [graph]       the per-function accumulator and the dependency-graph merge
    - [filepath]    [filepath.Ext], [filepath.Base], [strings.Replace]
    - [build]       [Create] and [CreateBaseDev] of pkg/build/build.go
    - [output]      [printMap] of pkg/output/format.go
    - [sessions], [shop], [tables]  concrete inputs the code is run on

    The properties follow the definitions. *)

From Stdlib Require Import String Ascii List ZArith Bool Lia Permutation Sorted.
From Stdlib Require Import OrderedTypeEx.
From stdpp Require Import gmap strings pretty list fin_maps.

(** ** Protobuf messages (package pb) *)
Module pb.

(** [ResourceType] is a protobuf enum, an int32 with named constants.
    The seven constants the server names are constructors of their own;
    every other enum number is [ResourceType_Other n]. *)
Inductive ResourceType :=
  | ResourceType_Api
  | ResourceType_Bucket
  | ResourceType_Collection
  | ResourceType_Queue
  | ResourceType_Topic
  | ResourceType_Policy
  | ResourceType_Secret
  | ResourceType_Other (n : Z).

#[export] Instance ResourceType_eq_dec : EqDecision ResourceType.
Proof. solve_decision. Defined.

Record Resource := { Type_ : ResourceType; Name : string }.

Record ApiWorker := { Api : string; Path : string; Methods : list string }.
Record ScheduleWorker := { Key : string; Cadence : string }.
Record SubscriptionWorker := { Topic : string }.

(** The [Worker] oneof of an InitRequest; [Worker_nil] is the unset
    oneof (a nil interface in Go). *)
Inductive isInitRequest_Worker :=
  | InitRequest_Api (w : ApiWorker)
  | InitRequest_Schedule (w : ScheduleWorker)
  | InitRequest_Subscription (w : SubscriptionWorker)
  | Worker_nil.

Record InitRequest := { Worker : isInitRequest_Worker }.

Record TriggerResponse := { Data : string }.

(** The content oneof of a ClientMessage. *)
Inductive isClientMessage_Content :=
  | ClientMessage_InitRequest (ir : InitRequest)
  | ClientMessage_TriggerResponse (tr : TriggerResponse)
  | Content_nil.

Record ClientMessage := { Id : string; Content : isClientMessage_Content }.

Record ServerMessage := { SId : string; SData : string }.

(** [cm.GetInitRequest()]: nil unless the content is an InitRequest. *)
Definition GetInitRequest (cm : ClientMessage) : option InitRequest :=
  match Content cm with
  | ClientMessage_InitRequest ir => Some ir
  | _ => None
  end.

Record BucketResource := {}.
Record QueueResource := {}.
Record TopicResource := {}.
Record CollectionResource := {}.
Record SecretResource := {}.
Record PolicyResource := {
  Principals : list Resource;
  Actions : list Z;
  Resources : list Resource }.
Record ApiResource := {
  SecurityDefinitions : list (string * string);
  Security : list (string * list string) }.

(** The config oneof of a ResourceDeclareRequest. *)
Inductive isResourceDeclareRequest_Config :=
  | Config_Bucket (b : BucketResource)
  | Config_Queue (q : QueueResource)
  | Config_Topic (t : TopicResource)
  | Config_Collection (c : CollectionResource)
  | Config_Secret (s : SecretResource)
  | Config_Policy (p : PolicyResource)
  | Config_Api (a : ApiResource)
  | Config_nil.

(** [DResource] is a pointer in Go: [None] is nil. *)
Record ResourceDeclareRequest := {
  DResource : option Resource;
  Config : isResourceDeclareRequest_Config }.

Record ResourceDeclareResponse := {}.

Definition GetBucket (r : ResourceDeclareRequest) : option BucketResource :=
  match Config r with Config_Bucket b => Some b | _ => None end.
Definition GetQueue (r : ResourceDeclareRequest) : option QueueResource :=
  match Config r with Config_Queue b => Some b | _ => None end.
Definition GetTopic (r : ResourceDeclareRequest) : option TopicResource :=
  match Config r with Config_Topic b => Some b | _ => None end.
Definition GetCollection (r : ResourceDeclareRequest) : option CollectionResource :=
  match Config r with Config_Collection b => Some b | _ => None end.
Definition GetSecret (r : ResourceDeclareRequest) : option SecretResource :=
  match Config r with Config_Secret b => Some b | _ => None end.
Definition GetPolicy (r : ResourceDeclareRequest) : option PolicyResource :=
  match Config r with Config_Policy b => Some b | _ => None end.
Definition GetApi (r : ResourceDeclareRequest) : option ApiResource :=
  match Config r with Config_Api b => Some b | _ => None end.

Record ResourceDetailsRequest := { QResource : option Resource }.

Record ApiResourceDetails := { Url : string }.
Inductive isResourceDetailsResponse_Details :=
  | ResourceDetailsResponse_Api (a : ApiResourceDetails).
Record ResourceDetailsResponse := {
  RId : string;
  Provider : string;
  Service : string;
  Details : isResourceDetailsResponse_Details }.

End pb.

(** Go's [error] values.  The constructors follow the calls that build
    them in the sources. *)
Inductive Code := Internal | FailedPrecondition.

Inductive error :=
  | errors_New (msg : string)
      (* an error produced outside the modelled packages: the transport,
         the file system, the container engine, an accumulator *)
  | io_EOF
  | status_Error (c : Code) (msg : string)
  | status_Errorf (c : Code) (format : string) (cause : error)
  | fmt_Errorf (format : string) (arg : pb.ResourceType).

(** What a call comes to: it returns, or it panics. *)
Inductive Outcome (A : Type) :=
  | Returned (a : A)
  | Panicked.
Arguments Returned {A} a.
Arguments Panicked {A}.

(** ** The capture server (package codeconfig) *)
Module codeconfig.
Import pb.

(** The server's side of a bidirectional gRPC stream.  [pending] is what
    [Recv] will yield, in order: a message, or the error the transport
    reports; once drained, [Recv] yields [io.EOF].  [sent] is what the
    server has sent.  [status] is [None] while the stream is open; gRPC
    closes the stream with the handler's return value when the handler
    returns. *)
Inductive RecvEvent :=
  | Msg (cm : ClientMessage)
  | Fail (e : error).

Record Stream := {
  pending : list RecvEvent;
  sent : list ServerMessage;
  status : option (option error) }.

Definition Recv (st : Stream) : (ClientMessage + error) * Stream :=
  match pending st with
  | [] => (inr io_EOF, st)
  | Msg cm :: rest =>
      (inl cm, {| pending := rest; sent := sent st; status := status st |})
  | Fail e :: rest =>
      (inr e, {| pending := rest; sent := sent st; status := status st |})
  end.

Definition close (ret : option error) (st : Stream) : Stream :=
  {| pending := pending st; sent := sent st; status := Some ret |}.

(** The methods of [*FunctionDependencies] the server calls.  Their
    bodies are not part of the sources at hand, so the server is
    embedded over any implementation of them: a method mutating the
    receiver is a function on the accumulator's state, and the three
    handler methods also return an [error]. *)
Class Accumulator (FD : Type) := {
  AddApiHandler : ApiWorker -> FD -> FD * option error;
  AddScheduleHandler : ScheduleWorker -> FD -> FD * option error;
  AddSubscriptionHandler : SubscriptionWorker -> FD -> FD * option error;
  AddBucket : string -> option BucketResource -> FD -> FD;
  AddCollection : string -> option CollectionResource -> FD -> FD;
  AddQueue : string -> option QueueResource -> FD -> FD;
  AddTopic : string -> option TopicResource -> FD -> FD;
  AddPolicy : option PolicyResource -> FD -> FD;
  AddSecret : string -> option SecretResource -> FD -> FD;
  AddApiSecurityDefinitions : string -> list (string * string) -> FD -> FD;
  AddApiSecurity : string -> list (string * list string) -> FD -> FD }.

Section WithAccumulator.
Context {FD : Type} `{Accumulator FD}.

Record Server := { name : string; function : FD }.

Definition NewServer (name : string) (function : FD) : Server :=
  {| name := name; function := function |}.

Definition set_function (s : Server) (fd : FD) : Server :=
  {| name := name s; function := fd |}.

(** [Server.TriggerStream]: the server, the stream and the error it
    returns.  A handler method works on [s.function] in place and its
    error is what [TriggerStream] returns. *)
Definition TriggerStream (s : Server) (stream : Stream)
  : Server * Stream * option error :=
  match Recv stream with
  | (inr err, stream') =>
      (s, stream',
       Some (status_Errorf Internal "error reading message from stream: %v" err))
  | (inl cm, stream') =>
      match GetInitRequest cm with
      | None =>
          (s, stream',
           Some (status_Error FailedPrecondition "first message must be InitRequest"))
      | Some ir =>
          match Worker ir with
          | InitRequest_Api w =>
              let r := AddApiHandler w (function s) in
              (set_function s (fst r), stream', snd r)
          | InitRequest_Schedule w =>
              let r := AddScheduleHandler w (function s) in
              (set_function s (fst r), stream', snd r)
          | InitRequest_Subscription w =>
              let r := AddSubscriptionHandler w (function s) in
              (set_function s (fst r), stream', snd r)
          | Worker_nil =>
              (* treat as normal function worker: no-op *)
              (s, stream', None)
          end
      end
  end.

(** The gRPC runtime around the handler: the stream is closed with the
    handler's return value as soon as the handler returns. *)
Definition serve_TriggerStream (s : Server) (stream : Stream)
  : Server * Stream :=
  let '(s', stream', ret) := TriggerStream s stream in
  (s', close ret stream').

(** [Server.Declare]; [req.Resource.Type] dereferences [req.Resource]. *)
Definition Server_Declare (s : Server) (req : ResourceDeclareRequest)
  : Server * Outcome (ResourceDeclareResponse * option error) :=
  match DResource req with
  | None => (s, Panicked)
  | Some res =>
      let ok := Returned (Build_ResourceDeclareResponse, None) in
      match Type_ res with
      | ResourceType_Bucket =>
          (set_function s (AddBucket (Name res) (GetBucket req) (function s)), ok)
      | ResourceType_Collection =>
          (set_function s
             (AddCollection (Name res) (GetCollection req) (function s)), ok)
      | ResourceType_Queue =>
          (set_function s (AddQueue (Name res) (GetQueue req) (function s)), ok)
      | ResourceType_Topic =>
          (set_function s (AddTopic (Name res) (GetTopic req) (function s)), ok)
      | ResourceType_Policy =>
          (set_function s (AddPolicy (GetPolicy req) (function s)), ok)
      | ResourceType_Secret =>
          (set_function s (AddSecret (Name res) (GetSecret req) (function s)), ok)
      | ResourceType_Api =>
          (* [req.GetApi().SecurityDefinitions] dereferences the result
             of [GetApi], nil when the config is not an Api one *)
          match GetApi req with
          | None => (s, Panicked)
          | Some a =>
              (set_function s
                 (AddApiSecurity (Name res) (Security a)
                    (AddApiSecurityDefinitions (Name res)
                       (SecurityDefinitions a) (function s))), ok)
          end
      | ResourceType_Other _ => (s, ok)
      end
  end.

(** [Server.Details]. *)
Definition Details (s : Server) (req : ResourceDetailsRequest)
  : Outcome (option ResourceDetailsResponse * option error) :=
  match QResource req with
  | None => Panicked
  | Some res =>
      match Type_ res with
      | ResourceType_Api =>
          Returned
            (Some {| Provider := "dev";
                     Service := "Api";
                     RId := Name res;
                     pb.Details :=
                       ResourceDetailsResponse_Api
                         {| Url := "http://localhost:50051/apis/" +:+ Name res |} |},
             None)
      | t => Returned (None, Some (fmt_Errorf "unsupported resource type %s" t))
      end
  end.

End WithAccumulator.
Arguments Server FD : clear implicits.

End codeconfig.

(** ** The accumulator and the dependency graph *)
Module graph.
Import pb codeconfig.

#[export] Instance ResourceType_countable : Countable ResourceType.
Proof.
  refine (inj_countable'
    (fun t => match t with
              | ResourceType_Api => inl 0%nat
              | ResourceType_Bucket => inl 1%nat
              | ResourceType_Collection => inl 2%nat
              | ResourceType_Queue => inl 3%nat
              | ResourceType_Topic => inl 4%nat
              | ResourceType_Policy => inl 5%nat
              | ResourceType_Secret => inl 6%nat
              | ResourceType_Other n => inr n
              end)
    (fun x => match x with
              | inl 0%nat => ResourceType_Api
              | inl 1%nat => ResourceType_Bucket
              | inl 2%nat => ResourceType_Collection
              | inl 3%nat => ResourceType_Queue
              | inl 4%nat => ResourceType_Topic
              | inl 5%nat => ResourceType_Policy
              | inl _ => ResourceType_Secret
              | inr n => ResourceType_Other n
              end) _).
  intros []; reflexivity.
Defined.

#[export] Instance ApiWorker_eq_dec : EqDecision ApiWorker.
Proof. solve_decision. Defined.
#[export] Instance ScheduleWorker_eq_dec : EqDecision ScheduleWorker.
Proof. solve_decision. Defined.
#[export] Instance SubscriptionWorker_eq_dec : EqDecision SubscriptionWorker.
Proof. solve_decision. Defined.

(** Adding to a set kept as a list: a member is not added again. *)
Definition set_add {A} `{EqDecision A} (x : A) (l : list A) : list A :=
  if decide (x ∈ l) then l else l ++ [x].

(** Modelled from the spec: the per-function accumulator
    [FunctionDependencies], whose source file is not at hand.  Section 3
    gives its attributes: a set of API route bindings, a set of schedule
    bindings, a set of subscription bindings, and a set of declared
    resources keyed by (kind, name); policies carry no name of their own
    and are kept as they are declared. *)
Record FunctionDependencies := {
  apis : list ApiWorker;
  schedules : list ScheduleWorker;
  subscriptions : list SubscriptionWorker;
  resources : gset (ResourceType * string);
  policies : list PolicyResource }.

(** Modelled from the spec: the accumulator is created empty when a
    function's discovery begins. *)
Definition NewFunction : FunctionDependencies :=
  {| apis := []; schedules := []; subscriptions := [];
     resources := ∅; policies := [] |}.

(** Modelled from the spec: a declared resource joins the set under its
    key (kind, name). *)
Definition declare (k : ResourceType) (n : string) (fd : FunctionDependencies)
  : FunctionDependencies :=
  {| apis := apis fd; schedules := schedules fd;
     subscriptions := subscriptions fd;
     resources := {[ (k, n) ]} ∪ resources fd;
     policies := policies fd |}.

(** Modelled from the spec: the accumulator methods.  A handler method
    records its binding in the matching set and reports no error; a
    resource method records the key (kind, name), so declaring the same
    resource again changes nothing. *)
#[export] Instance FunctionDependencies_Accumulator
  : Accumulator FunctionDependencies := {|
  AddApiHandler w fd :=
    ({| apis := set_add w (apis fd); schedules := schedules fd;
        subscriptions := subscriptions fd; resources := resources fd;
        policies := policies fd |}, None);
  AddScheduleHandler w fd :=
    ({| apis := apis fd; schedules := set_add w (schedules fd);
        subscriptions := subscriptions fd; resources := resources fd;
        policies := policies fd |}, None);
  AddSubscriptionHandler w fd :=
    ({| apis := apis fd; schedules := schedules fd;
        subscriptions := set_add w (subscriptions fd);
        resources := resources fd; policies := policies fd |}, None);
  AddBucket n _ fd := declare ResourceType_Bucket n fd;
  AddCollection n _ fd := declare ResourceType_Collection n fd;
  AddQueue n _ fd := declare ResourceType_Queue n fd;
  AddTopic n _ fd := declare ResourceType_Topic n fd;
  AddPolicy p fd :=
    {| apis := apis fd; schedules := schedules fd;
       subscriptions := subscriptions fd; resources := resources fd;
       policies := policies fd ++ option_list p |};
  AddSecret n _ fd := declare ResourceType_Secret n fd;
  AddApiSecurityDefinitions n _ fd := declare ResourceType_Api n fd;
  AddApiSecurity n _ fd := declare ResourceType_Api n fd |}.

(** The trigger bindings a function has accumulated. *)
Definition trigger_bindings (fd : FunctionDependencies) : nat :=
  length (apis fd) + length (schedules fd) + length (subscriptions fd).

(** Modelled from the spec: a resource claim (kind, name, requesting
    function, access mode) of section 3. *)
Record ResourceClaim := {
  kind : ResourceType;
  rname : string;
  requestingFunction : string;
  accessMode : string }.

Definition claim_key (c : ResourceClaim) : ResourceType * string :=
  (kind c, rname c).
Definition claim_policy (c : ResourceClaim) : string * string :=
  (requestingFunction c, accessMode c).

(** Modelled from the spec: the dependency graph of section 3, at most
    one entry per (kind, name), holding the union of the access policies
    of the contributing claims. *)
Abbreviation DependencyGraph :=
  (gmap (ResourceType * string) (gset (string * string))).

(** Modelled from the spec: one step of the merge of section 4.5; the
    claim joins the group of its (kind, name), whose policy set is the
    union of the access modes claimed so far. *)
Definition add_claim (c : ResourceClaim) (g : DependencyGraph)
  : DependencyGraph :=
  <[ claim_key c := {[ claim_policy c ]} ∪ default ∅ (g !! claim_key c) ]> g.

(** Modelled from the spec: the merge of section 4.5 iterates every
    claim across all functions. *)
Definition merge_into (g : DependencyGraph) (claims : list ResourceClaim)
  : DependencyGraph :=
  fold_left (fun g c => add_claim c g) claims g.

Definition merge (claims : list ResourceClaim) : DependencyGraph :=
  merge_into ∅ claims.

(** Modelled from the spec: the input of the merge is the claims of every
    function that completed discovery, in the order the functions
    completed. *)
Definition merge_functions (functions : list (list ResourceClaim))
  : DependencyGraph :=
  merge (concat functions).

(** The policy set of a key; empty when the graph has no entry for it. *)
Definition policies_at (g : DependencyGraph) (k : ResourceType * string)
  : gset (string * string) :=
  default ∅ (g !! k).

End graph.

(** ** Path and string helpers of Go's standard library (Unix) *)
Module filepath.

Definition IsPathSeparator (c : ascii) : bool := Ascii.eqb c "/".

(** [filepath.Ext]: scanning back from the end of the path up to the last
    separator, the suffix that starts at the first dot met. *)
Fixpoint Ext_scan (back : list ascii) (suffix : list ascii) : string :=
  match back with
  | [] => ""
  | c :: back' =>
      if IsPathSeparator c then ""
      else if Ascii.eqb c "." then string_of_list_ascii (c :: suffix)
      else Ext_scan back' (c :: suffix)
  end.

Definition Ext (path : string) : string :=
  Ext_scan (rev (list_ascii_of_string path)) [].

Fixpoint strip_separators (back : list ascii) : list ascii :=
  match back with
  | c :: back' => if IsPathSeparator c then strip_separators back' else back
  | [] => []
  end.

Fixpoint last_element (back : list ascii) (suffix : list ascii) : list ascii :=
  match back with
  | [] => suffix
  | c :: back' =>
      if IsPathSeparator c then suffix else last_element back' (c :: suffix)
  end.

(** [filepath.Base]: the last element of the path, trailing separators
    removed; "." for the empty path, "/" for a path of separators. *)
Definition Base (path : string) : string :=
  match path with
  | EmptyString => "."
  | _ =>
      match last_element (strip_separators (rev (list_ascii_of_string path))) [] with
      | [] => "/"
      | l => string_of_list_ascii l
      end
  end.

(** [strings.Replace(s, ".", "", 1)]: [s] without its first dot. *)
Fixpoint Replace_dot_once (s : string) : string :=
  match s with
  | EmptyString => EmptyString
  | String c s' => if Ascii.eqb c "." then s' else String c (Replace_dot_once s')
  end.

End filepath.

(** ** The image build passes (pkg/build/build.go) *)
Module build.

Record Function := { Name : string; Handler : string }.
Record Container := { CName : string; Dockerfile : string }.
Record Project := {
  PName : string;
  Dir : string;
  Functions : list Function;
  Containers : list Container }.
Record Target := { Provider : string }.

(** The [runtime.Runtime] interface, as far as the passes call it.  The
    file argument is the name of the descriptor written to.  A call
    returns, with an error or nil, or panics. *)
Record Runtime := {
  FunctionDockerfile :
    string -> string -> string -> string -> Outcome (option error);
  FunctionDockerfileForCodeAsConfig : string -> Outcome (option error);
  DevImageName : string }.

(** The [containerengine.ContainerEngine] interface: [Build dockerfile
    path imageTag buildArgs]. *)
Record ContainerEngine := {
  Build :
    string -> string -> string -> list (string * string) -> Outcome (option error) }.

(** What the passes call outside their package.  [CreateTemp files dir
    pattern] is [os.CreateTemp] in a directory holding [files]: the name
    of the file it creates, or an error.  [RemovesOpenFiles] says what
    [os.Remove] does with a file that is still open: on Unix the name is
    unlinked, on Windows the call fails with a sharing violation and the
    file stays. *)
Record Env := {
  Discover : Outcome (ContainerEngine + error);
  CreateTemp : gset string -> string -> string -> Outcome (string + error);
  NewRunTimeFromHandler : string -> Outcome (Runtime + error);
  VersionString : Function -> Project -> string;
  ImageTagName : Function -> Project -> string -> string;
  CImageTagName : Container -> Project -> string -> string;
  Join : string -> string -> string;
  RemovesOpenFiles : bool }.

(** Which unit of the project an image is built for. *)
Inductive Unit_ :=
  | OfFunction (f : Function)
  | OfContainer (c : Container).

(** One call of the engine's [Build].  [bc_unit] and [bc_ok] are
    bookkeeping: the unit whose turn it was, and whether the engine
    returned nil. *)
Record BuildCall := {
  bc_unit : Unit_;
  bc_dockerfile : string;
  bc_path : string;
  bc_tag : string;
  bc_args : list (string * string);
  bc_ok : bool }.

(** The two deferred calls of the passes: [os.Remove(fh.Name())] in
    [Create], and [f.Close(); os.Remove(f.Name())] in [CreateBaseDev]. *)
Inductive Deferred :=
  | Remove (fh : string)
  | Close_Remove (fh : string).

Definition file_of (d : Deferred) : string :=
  match d with Remove fh | Close_Remove fh => fh end.

(** The state a pass threads: the files of the project directory, those
    of them the pass holds open, the deferred calls (latest first, the
    order they run in), and the bookkeeping lists of descriptors created
    and engine calls made. *)
Record State := {
  files : gset string;
  opened : gset string;
  deferred : list Deferred;
  created : list string;
  builds : list BuildCall }.

(** How a statement of a pass ends: it goes on (with a value), it is a
    [return err], or it panics. *)
Inductive Step (A : Type) :=
  | Next (a : A)
  | Return (err : error)
  | Panic.
Arguments Next {A} a.
Arguments Return {A} err.
Arguments Panic {A}.

(** The statements of a pass, over its state. *)
Definition M (A : Type) : Type := State -> State * Step A.

Definition ret {A} (a : A) : M A := fun st => (st, Next a).

Definition bind {A B} (m : M A) (k : A -> M B) : M B :=
  fun st =>
    match m st with
    | (st', Next a) => k a st'
    | (st', Return err) => (st', Return err)
    | (st', Panic) => (st', Panic)
    end.

Notation "x <- m ;; k" := (bind m (fun x => k))
  (at level 100, m at level 99, right associativity).
Notation "m ;; k" := (bind m (fun _ => k))
  (at level 100, right associativity).

(** [v, err := call(...); if err != nil { return err }]. *)
Definition attempt {A} (call : Outcome (A + error)) : M A :=
  fun st =>
    (st, match call with
         | Returned (inl a) => Next a
         | Returned (inr err) => Return err
         | Panicked => Panic
         end).

(** [err := call(...); if err != nil { return err }]. *)
Definition check (call : Outcome (option error)) : M unit :=
  fun st =>
    (st, match call with
         | Returned None => Next tt
         | Returned (Some err) => Return err
         | Panicked => Panic
         end).

Definition is_nil (call : Outcome (option error)) : bool :=
  match call with Returned None => true | _ => false end.

(** [dynamicDockerfile]: [os.CreateTemp] in [dir]; on success the file is
    in the directory, and open. *)
Definition dynamicDockerfile (env : Env) (dir name : string) : M string :=
  fun st =>
    match CreateTemp env (files st) dir "nitric.dynamic.Dockerfile.*" with
    | Returned (inl fh) =>
        ({| files := {[ fh ]} ∪ files st;
            opened := {[ fh ]} ∪ opened st;
            deferred := deferred st;
            created := created st ++ [fh];
            builds := builds st |}, Next fh)
    | Returned (inr err) => (st, Return err)
    | Panicked => (st, Panic)
    end.

(** [defer func() { ... }()]: the call is kept for the end of the pass. *)
Definition defer (d : Deferred) : M unit :=
  fun st =>
    ({| files := files st; opened := opened st; deferred := d :: deferred st;
        created := created st; builds := builds st |}, Next tt).

(** [fh.Close()]; its error is not looked at. *)
Definition Close (fh : string) : M unit :=
  fun st =>
    ({| files := files st; opened := opened st ∖ {[ fh ]};
        deferred := deferred st; created := created st;
        builds := builds st |}, Next tt).

(** [err = cr.Build(...); if err != nil { return err }], with the call
    kept in the log. *)
Definition build_image (cr : ContainerEngine) (u : Unit_)
    (dockerfile path tag : string) (buildArgs : list (string * string))
  : M unit :=
  fun st =>
    let call := Build cr dockerfile path tag buildArgs in
    check call
      {| files := files st; opened := opened st; deferred := deferred st;
         created := created st;
         builds := builds st
                   ++ [{| bc_unit := u; bc_dockerfile := dockerfile;
                          bc_path := path; bc_tag := tag; bc_args := buildArgs;
                          bc_ok := is_nil call |}] |}.

(** A [for _, x := range l] loop; [b] stands for the variables the
    iterations update. *)
Fixpoint range {A B} (l : list A) (body : A -> B -> M B) (b : B) : M B :=
  match l with
  | [] => ret b
  | x :: l' => b' <- body x b ;; range l' body b'
  end.

(** The body of the loop over [s.Functions] in [Create]. *)
Definition Create_function (env : Env) (cr : ContainerEngine)
    (s : Project) (t : Target) (f : Function) : M unit :=
  fh <- dynamicDockerfile env (Dir s) (Name f) ;;
  defer (Remove fh) ;;
  rt <- attempt (NewRunTimeFromHandler env (Handler f)) ;;
  check (FunctionDockerfile rt (Dir s) (VersionString env f s) (Provider t) fh) ;;
  Close fh ;;
  let buildArgs := [("PROVIDER"%string, Provider t)] in
  build_image cr (OfFunction f) (filepath.Base fh) (Dir s)
    (ImageTagName env f s (Provider t)) buildArgs.

(** The body of the loop over [s.Containers] in [Create]. *)
Definition Create_container (env : Env) (cr : ContainerEngine)
    (s : Project) (t : Target) (c : Container) : M unit :=
  let buildArgs := [("PROVIDER"%string, Provider t)] in
  build_image cr (OfContainer c) (Join env (Dir s) (Dockerfile c)) (Dir s)
    (CImageTagName env c s (Provider t)) buildArgs.

(** The statements of [Create]. *)
Definition Create_body (env : Env) (s : Project) (t : Target) : M unit :=
  cr <- attempt (Discover env) ;;
  range (Functions s) (fun f _ => Create_function env cr s t f) tt ;;
  range (Containers s) (fun c _ => Create_container env cr s t c) tt.

(** The language key of a handler in [CreateBaseDev]: its extension
    without the dot. *)
Definition lang (handler : string) : string :=
  filepath.Replace_dot_once (filepath.Ext handler).

(** The body of the loop in [CreateBaseDev]; the local map
    [imagesToBuild] is what the iterations update, and a handler whose
    language is in the map takes the [continue]. *)
Definition CreateBaseDev_function (env : Env) (ce : ContainerEngine)
    (s : Project) (f : Function) (imagesToBuild : gmap string string)
  : M (gmap string string) :=
  rt <- attempt (NewRunTimeFromHandler env (Handler f)) ;;
  match imagesToBuild !! lang (Handler f) with
  | Some _ => ret imagesToBuild
  | None =>
      fh <- dynamicDockerfile env (Dir s) (Name f) ;;
      defer (Close_Remove fh) ;;
      check (FunctionDockerfileForCodeAsConfig rt fh) ;;
      build_image ce (OfFunction f) (filepath.Base fh) (Dir s) (DevImageName rt) [] ;;
      ret (<[ lang (Handler f) := DevImageName rt ]> imagesToBuild)
  end.

(** The statements of [CreateBaseDev]. *)
Definition CreateBaseDev_body (env : Env) (s : Project) : M unit :=
  ce <- attempt (Discover env) ;;
  range (Functions s) (CreateBaseDev_function env ce s) ∅ ;;
  ret tt.

(** [os.Remove(name)] with its error dropped, as the deferred calls
    have it: the file is gone, unless it is open where an open file
    cannot be removed. *)
Definition os_Remove (env : Env) (fh : string) (st : State) : State :=
  if bool_decide (fh ∈ opened st) && negb (RemovesOpenFiles env) then st
  else {| files := files st ∖ {[ fh ]}; opened := opened st;
          deferred := deferred st; created := created st;
          builds := builds st |}.

(** One deferred call. *)
Definition run_one (env : Env) (st : State) (d : Deferred) : State :=
  match d with
  | Remove fh => os_Remove env fh st
  | Close_Remove fh => os_Remove env fh (fst (Close fh st))
  end.

(** The deferred calls run when the function returns or panics, latest
    first. *)
Definition run_deferred (env : Env) (st : State) : State :=
  let st' := fold_left (run_one env) (deferred st) st in
  {| files := files st'; opened := opened st'; deferred := [];
     created := created st'; builds := builds st' |}.

Definition start (fs : gset string) : State :=
  {| files := fs; opened := ∅; deferred := []; created := []; builds := [] |}.

(** A call of a pass in a project directory holding [fs]: its statements
    run, then its deferred calls; it returns an error or nil, or the
    panic goes on to the caller. *)
Definition call (env : Env) (body : M unit) (fs : gset string)
  : State * Outcome (option error) :=
  match body (start fs) with
  | (st, Next _) => (run_deferred env st, Returned None)
  | (st, Return err) => (run_deferred env st, Returned (Some err))
  | (st, Panic) => (run_deferred env st, Panicked)
  end.

Definition Create (env : Env) (s : Project) (t : Target) (fs : gset string)
  : State * Outcome (option error) :=
  call env (Create_body env s t) fs.

Definition CreateBaseDev (env : Env) (s : Project) (fs : gset string)
  : State * Outcome (option error) :=
  call env (CreateBaseDev_body env s) fs.

(** Statements that keep a property of the state, however they end. *)
Definition keeps (P : State -> Prop) {A} (m : M A) : Prop :=
  forall st st' r, P st -> m st = (st', r) -> P st'.

(** Every descriptor created so far is in the directory and has its
    removal deferred, and nothing else changed in the directory. *)
Definition tracked (fs : gset string) (st : State) : Prop :=
  files st = fs ∪ list_to_set (created st)
  /\ (list_to_set (map file_of (deferred st)) : gset string)
     = list_to_set (created st).

(** Every deferred removal of a file that is not closed first will find
    it closed, or can remove it open. *)
Definition removable (env : Env) (st : State) : Prop :=
  forall fh, Remove fh ∈ deferred st ->
             fh ∈ opened st -> RemovesOpenFiles env = true.

(** The image tags of the project's units, in the order [Create] takes
    them: the functions, then the containers. *)
Definition unit_tags (env : Env) (s : Project) (t : Target) : list string :=
  map (fun f => ImageTagName env f s (Provider t)) (Functions s)
  ++ map (fun c => CImageTagName env c s (Provider t)) (Containers s).

(** The tags of the images the engine did build. *)
Definition built_tags (st : State) : list string :=
  map bc_tag (filter (fun b => bc_ok b = true) (builds st)).

(** The engine was called for function [f]. *)
Definition attempted (st : State) (f : Function) : Prop :=
  exists b, b ∈ builds st /\ bc_unit b = OfFunction f.

(** The handlers, in order, of the functions the engine was called for. *)
Definition built_handlers (st : State) : list string :=
  omap (fun b => match bc_unit b with
                 | OfFunction f => Some (Handler f)
                 | OfContainer _ => None
                 end) (builds st).

(** The invariant of the loop of [CreateBaseDev]: the languages of the
    handlers built so far are pairwise distinct and are keys of
    [imagesToBuild]. *)
Definition languages_recorded (imagesToBuild : gmap string string)
    (st : State) : Prop :=
  NoDup (map lang (built_handlers st))
  /\ forall l, l ∈ map lang (built_handlers st) -> is_Some (imagesToBuild !! l).

(** What one iteration does to the log: it goes on after one successful
    build of the unit's image, or ends the pass after at most one call of
    the engine and no successful build. *)
Definition builds_its_image {A} (tag : A -> string) (body : A -> unit -> M unit)
  : Prop :=
  forall x st st' r, body x tt st = (st', r) ->
    built_tags st'
    = built_tags st ++ (match r with Next _ => [tag x] | _ => [] end)
    /\ length (builds st') <= S (length (builds st)).

(** Every deferred call closes the file before it removes it, as those
    of [CreateBaseDev] do. *)
Definition closes_first (st : State) : Prop :=
  forall fh, Remove fh ∉ deferred st.

(** How a call that can fail ended, as the error a pass looks at: nil,
    an error, or a panic. *)
Definition error_of {A} (c : Outcome (A + error)) : Outcome (option error) :=
  match c with
  | Returned (inl _) => Returned None
  | Returned (inr err) => Returned (Some err)
  | Panicked => Panicked
  end.

(** How a pass ends when its last statement ended with [r]. *)
Definition ending_of {A} (r : Step A) : Outcome (option error) :=
  match r with
  | Next _ => Returned None
  | Return err => Returned (Some err)
  | Panic => Panicked
  end.

(** The units of a project in the order [Create] takes them, and the tag
    of a unit's image. *)
Definition units (s : Project) : list Unit_ :=
  map OfFunction (Functions s) ++ map OfContainer (Containers s).

Definition tag_of (env : Env) (s : Project) (t : Target) (u : Unit_) : string :=
  match u with
  | OfFunction f => ImageTagName env f s (Provider t)
  | OfContainer c => CImageTagName env c s (Provider t)
  end.

(** The calls [Create] makes for a unit after the descriptor is there
    all returned nil: for a function the runtime lookup, the generation
    of the descriptor and the build from some descriptor; for a
    container the build from its Dockerfile. *)
Definition unit_built (env : Env) (cr : ContainerEngine) (s : Project)
    (t : Target) (u : Unit_) : Prop :=
  match u with
  | OfFunction f =>
      exists rt fh,
        NewRunTimeFromHandler env (Handler f) = Returned (inl rt)
        /\ FunctionDockerfile rt (Dir s) (VersionString env f s) (Provider t) fh
           = Returned None
        /\ Build cr (filepath.Base fh) (Dir s) (ImageTagName env f s (Provider t))
             [("PROVIDER"%string, Provider t)] = Returned None
  | OfContainer c =>
      Build cr (Join env (Dir s) (Dockerfile c)) (Dir s)
        (CImageTagName env c s (Provider t)) [("PROVIDER"%string, Provider t)]
      = Returned None
  end.

(** [r] is how one of the calls [Create] makes for a unit ended, the
    calls before it having returned nil: for a function the creation of
    the descriptor, the runtime lookup, the generation of the descriptor
    or the build; for a container the build. *)
Definition unit_failed (env : Env) (cr : ContainerEngine) (s : Project)
    (t : Target) (u : Unit_) (r : Outcome (option error)) : Prop :=
  match u with
  | OfFunction f =>
      (exists present,
         error_of (CreateTemp env present (Dir s) "nitric.dynamic.Dockerfile.*") = r)
      \/ error_of (NewRunTimeFromHandler env (Handler f)) = r
      \/ exists rt fh,
           NewRunTimeFromHandler env (Handler f) = Returned (inl rt)
           /\ (FunctionDockerfile rt (Dir s) (VersionString env f s) (Provider t) fh
               = r
               \/ (FunctionDockerfile rt (Dir s) (VersionString env f s)
                     (Provider t) fh = Returned None
                   /\ Build cr (filepath.Base fh) (Dir s)
                        (ImageTagName env f s (Provider t))
                        [("PROVIDER"%string, Provider t)] = r))
  | OfContainer c =>
      Build cr (Join env (Dir s) (Dockerfile c)) (Dir s)
        (CImageTagName env c s (Provider t)) [("PROVIDER"%string, Provider t)]
      = r
  end.

(** What one iteration of a loop of [Create] does, for the unit [u x]
    it is for: it goes on after the unit's calls returned nil and its
    image was built by one call of the engine, for that unit; or it ends
    the pass the way the failing call ended, with no image built, after
    no call of the engine or one, for that unit. *)
Definition runs_its_unit {A} (env : Env) (cr : ContainerEngine) (s : Project)
    (t : Target) (u : A -> Unit_) (body : A -> unit -> M unit) : Prop :=
  forall x st st' r, body x tt st = (st', r) ->
    match r with
    | Next _ =>
        unit_built env cr s t (u x)
        /\ built_tags st' = built_tags st ++ [tag_of env s t (u x)]
        /\ map bc_unit (builds st') = map bc_unit (builds st) ++ [u x]
    | _ =>
        unit_failed env cr s t (u x) (ending_of r)
        /\ built_tags st' = built_tags st
        /\ (builds st' = builds st
            \/ map bc_unit (builds st') = map bc_unit (builds st) ++ [u x])
    end.

End build.

(** ** A concrete project and environment, used to run the passes *)
Module shop.
Import build.

Definition orders := {| Name := "orders"; Handler := "functions/orders.ts" |}.
Definition billing := {| Name := "billing"; Handler := "functions/billing.ts" |}.
Definition audit := {| Name := "audit"; Handler := "functions/audit/main.go" |}.

Definition project : Project :=
  {| PName := "shop"; Dir := "/src/shop";
     Functions := [orders; billing; audit];
     Containers := [{| CName := "proxy"; Dockerfile := "proxy/Dockerfile" |}] |}.

Definition aws : Target := {| Provider := "aws" |}.

Definition runtime_of (handler : string) : Runtime :=
  {| FunctionDockerfile _ _ _ _ := Returned None;
     FunctionDockerfileForCodeAsConfig _ := Returned None;
     DevImageName := "nitric-" +:+ lang handler +:+ "-dev" |}.

(** An engine that fails to build the images whose tag is in [broken],
    and panics on those whose tag is in [fatal]. *)
Definition engine (broken fatal : list string) : ContainerEngine :=
  {| Build _ _ tag _ :=
       if bool_decide (tag ∈ fatal) then Panicked
       else if bool_decide (tag ∈ broken)
            then Returned (Some (errors_New "build failed"))
            else Returned None |}.

Definition env (broken fatal : list string) : Env :=
  {| Discover := Returned (inl (engine broken fatal));
     CreateTemp fs dir _ :=
       Returned (inl (dir +:+ "/nitric.dynamic.Dockerfile." +:+ pretty (size fs)));
     NewRunTimeFromHandler handler := Returned (inl (runtime_of handler));
     VersionString f _ := Name f;
     ImageTagName f s provider := PName s +:+ "-" +:+ Name f +:+ "-" +:+ provider;
     CImageTagName c s provider := PName s +:+ "-" +:+ CName c +:+ "-" +:+ provider;
     Join dir file := dir +:+ "/" +:+ file;
     RemovesOpenFiles := true |}.

(** A function whose handler no runtime is known for, and the shop
    with it in the place of billing. *)
Definition reports := {| Name := "reports"; Handler := "functions/reports.rb" |}.

Definition with_reports : Project :=
  {| PName := "shop"; Dir := "/src/shop";
     Functions := [orders; reports; audit];
     Containers := [{| CName := "proxy"; Dockerfile := "proxy/Dockerfile" |}] |}.

(** An environment whose engine builds everything and that knows the
    runtimes of .ts, .js and .go handlers only; [removes_open] is true
    for Unix and false for Windows. *)
Definition strict (removes_open : bool) : Env :=
  {| Discover := Returned (inl (engine [] []));
     CreateTemp fs dir _ :=
       Returned (inl (dir +:+ "/nitric.dynamic.Dockerfile." +:+ pretty (size fs)));
     NewRunTimeFromHandler handler :=
       if bool_decide (lang handler ∈ ["ts"; "js"; "go"]%string)
       then Returned (inl (runtime_of handler))
       else Returned (inr (errors_New "runtime not supported"));
     VersionString f _ := Name f;
     ImageTagName f s provider := PName s +:+ "-" +:+ Name f +:+ "-" +:+ provider;
     CImageTagName c s provider := PName s +:+ "-" +:+ CName c +:+ "-" +:+ provider;
     Join dir file := dir +:+ "/" +:+ file;
     RemovesOpenFiles := removes_open |}.

End shop.

(** ** Table output (pkg/output/format.go) *)
Module output.

(** [reflect.Kind]. *)
Inductive Kind :=
  | Invalid | Bool | Int | Int8 | Int16 | Int32 | Int64
  | Uint | Uint8 | Uint16 | Uint32 | Uint64 | Uintptr
  | Float32 | Float64 | Complex64 | Complex128
  | Array | Chan | Func | Interface | Map | Ptr | Slice
  | String_ | Struct | UnsafePointer.

(** A struct tag, as the key/value pairs [Tag.Get] finds in it. *)
Record StructField := { FieldName : string; Tag : list (string * string) }.

(** [reflect.Type]: its kind, its name as [Type.String] prints it, and
    the fields of a struct type. *)
Record Type_ := { TKind : Kind; TString : string; TFields : list StructField }.

#[local] Set Warnings "-register-all".

(** [reflect.Value]: its type, its data as text (for a value of kind
    String, the string itself), and the field values of a struct. *)
Inductive Value :=
  | mkValue (t : Type_) (s : string) (fields : list Value).

Definition Type_of (v : Value) : Type_ := let 'mkValue t _ _ := v in t.
Definition Kind_of (v : Value) : Kind := TKind (Type_of v).
Definition Fields_of (v : Value) : list Value := let 'mkValue _ _ fs := v in fs.

(** [Value.String]: the underlying string for kind String, and
    ["<T Value>"] with the type's name for every other kind. *)
Definition String_of (v : Value) : string :=
  let 'mkValue t s _ := v in
  match TKind t with
  | String_ => s
  | Invalid => "<invalid Value>"
  | _ => "<" +:+ TString t +:+ " Value>"
  end.

(** A cell of a [table.Row]: a Go string or a [reflect.Value]. *)
Inductive Cell :=
  | CString (s : string)
  | CValue (v : Value).

Abbreviation Row := (list Cell).

(** What the table writer was given when [Render] is called. *)
Record Table := { header : list Row; rows : list Row }.

(** [StructTag.Get]: the value of [key] in the tag, or "". *)
Definition Tag_Get (tag : list (string * string)) (key : string) : string :=
  match find (fun kv => String.eqb (fst kv) key) tag with
  | Some kv => snd kv
  | None => ""
  end.

(** [strings.Split(s, ",")]. *)
Fixpoint Split_comma (s : string) : list string :=
  match s with
  | EmptyString => [EmptyString]
  | String c s' =>
      if Ascii.eqb c "," then EmptyString :: Split_comma s'
      else match Split_comma s' with
           | h :: t => String c h :: t
           | [] => [String c EmptyString]
           end
  end.

Definition nonempty (s : string) : bool := negb (String.eqb s "").

(** [tags]: the comma-separated parts of the yaml tag, or else of the
    json tag; nil when the field has neither. *)
Definition tags (f : StructField) : list string :=
  match Tag f with
  | [] => []
  | _ =>
      match find (fun tName => nonempty (Tag_Get (Tag f) tName))
              ["yaml"%string; "json"%string] with
      | Some tName => Split_comma (Tag_Get (Tag f) tName)
      | None => []
      end
  end.

Definition nameFromField (f : StructField) : string :=
  match tags f with
  | t0 :: _ => t0
  | [] => ""
  end.

(** [namesFrom]: the column names for values of type [t]. *)
Definition namesFrom (t : Type_) : Row :=
  match TKind t with
  | Struct =>
      fold_left
        (fun names f =>
           let name := nameFromField f in
           if nonempty name then names ++ [CString name] else names)
        (TFields t) []
  | Slice | Array | Func | Chan | Interface | Map => []
  | _ => [CString "value"]
  end.

(** [sort.SliceStable]: a sort by [less] that keeps elements that
    compare equal in their original order. *)
Section Sort.
Context {A : Type} (less : A -> A -> bool).

Fixpoint insert (x : A) (l : list A) : list A :=
  match l with
  | [] => [x]
  | y :: l' => if less y x then y :: insert x l' else x :: y :: l'
  end.

Definition SliceStable (l : list A) : list A := foldr insert [] l.
End Sort.

(** A map seen through [reflect]: the type of its elements, its keys in
    the order [MapRange] yields them this time, and [MapIndex]. *)
Record MapObject := {
  Elem : Type_;
  MapRange : list Value;
  MapIndex : Value -> Value }.

(** The [less] of [printMap]:
    [keyList[i].String() < keyList[j].String()], byte-wise. *)
Definition keyLess (k1 k2 : Value) : bool :=
  (String_of k1 <? String_of k2)%string.

(** The row of a struct value: the key, then fields while the row is no
    longer than the names. *)
Definition structRow (names : Row) (k v : Value) : Row :=
  fold_left
    (fun row field =>
       if (length row <=? length names)%nat then row ++ [CValue field] else row)
    (Fields_of v) [CValue k].

(** The body of the loop over the sorted keys: the switch on the kind of
    [value.MapIndex(k)]. *)
Definition appendRow (names : Row) (object : MapObject)
    (rows : list Row) (k : Value) : list Row :=
  let v := MapIndex object k in
  match Kind_of v with
  | Struct => rows ++ [structRow names k v]
  | Slice | Array | Func | Chan | Interface | Map => rows
  | _ => rows ++ [[CValue k; CValue v]]
  end.

(** [printMap]: the table it hands to [Render], which writes it out. *)
Definition printMap (object : MapObject) : Table :=
  let names := namesFrom (Elem object) in
  let keyList := SliceStable keyLess (MapRange object) in
  {| header := [CString "key" :: names];
     rows := fold_left (appendRow names object) keyList [] |}.

(** The kinds of value [printMap] prints no row for. *)
Definition unsupported (k : Kind) : bool :=
  match k with
  | Slice | Array | Func | Chan | Interface | Map => true
  | _ => false
  end.

(** The key a row starts with. *)
Definition row_key (r : Row) : option Value :=
  match r with
  | CValue k :: _ => Some k
  | _ => None
  end.

(** Ascending order of the keys' strings. *)
Definition key_le (k1 k2 : Value) : Prop :=
  (String_of k1 <=? String_of k2)%string = true.

(** The same map, met in another iteration order. *)
Definition same_map (m m' : MapObject) : Prop :=
  Elem m' = Elem m
  /\ (forall k, MapIndex m' k = MapIndex m k)
  /\ Permutation (MapRange m') (MapRange m).

End output.

(** ** Concrete maps, used to run [printMap] *)
Module tables.
Import output.

Definition string_type : Type_ :=
  {| TKind := String_; TString := "string"; TFields := [] |}.
Definition int_type : Type_ :=
  {| TKind := Int; TString := "int"; TFields := [] |}.
Definition strings_type : Type_ :=
  {| TKind := Slice; TString := "[]string"; TFields := [] |}.
Definition target_type : Type_ :=
  {| TKind := Struct; TString := "target.Target";
     TFields := [ {| FieldName := "Name"; Tag := [("yaml"%string, "name"%string)] |};
                  {| FieldName := "Provider";
                     Tag := [("yaml"%string, "provider"%string)] |};
                  {| FieldName := "Region";
                     Tag := [("yaml"%string, "region,omitempty"%string)] |} ] |}.

Definition str (s : string) : Value := mkValue string_type s [].
Definition int (digits : string) : Value := mkValue int_type digits [].
Definition strings : Value := mkValue strings_type "" [].
Definition target (name provider region : string) : Value :=
  mkValue target_type "" [str name; str provider; str region].

Definition digits_of (v : Value) : string := let 'mkValue _ s _ := v in s.

(** map[string]target.Target{"local": ..., "test-app": ...}, met in the
    order given. *)
Definition targets (order : list Value) : MapObject :=
  {| Elem := target_type;
     MapRange := order;
     MapIndex k :=
       if String.eqb (String_of k) "local" then target "default" "local" ""
       else target "super-duper" "aws" "eastus" |}.

(** map[string][]string{"a": ..., "b": ...}. *)
Definition lists : MapObject :=
  {| Elem := strings_type;
     MapRange := [str "a"; str "b"];
     MapIndex _ := strings |}.

(** map[int]string{1: "one", 2: "two"}, met in the order given. *)
Definition numbered (order : list Value) : MapObject :=
  {| Elem := string_type;
     MapRange := order;
     MapIndex k := if String.eqb (digits_of k) "1" then str "one" else str "two" |}.

End tables.

(** ** Concrete sessions, used to run the server *)
Module sessions.
Import pb codeconfig graph.

Definition open_stream (msgs : list RecvEvent) : Stream :=
  {| pending := msgs; sent := []; status := None |}.

Definition fresh : Server FunctionDependencies :=
  NewServer "orders" NewFunction.

Definition response_first : ClientMessage :=
  {| Id := "1"; Content := ClientMessage_TriggerResponse {| Data := "ok" |} |}.

Definition init (w : isInitRequest_Worker) : ClientMessage :=
  {| Id := "1"; Content := ClientMessage_InitRequest {| Worker := w |} |}.

Definition route : ApiWorker :=
  {| Api := "shop"; Path := "/orders"; Methods := ["GET"%string] |}.

Definition declare_of (t : ResourceType) (n : string)
    (c : isResourceDeclareRequest_Config) : ResourceDeclareRequest :=
  {| DResource := Some {| Type_ := t; Name := n |}; Config := c |}.

Definition details_of (t : ResourceType) (n : string) : ResourceDetailsRequest :=
  {| QResource := Some {| Type_ := t; Name := n |} |}.

(** A function that has declared the bucket "uploads". *)
Definition with_bucket : Server FunctionDependencies :=
  fst (Server_Declare fresh
         (declare_of ResourceType_Bucket "uploads"
            (Config_Bucket Build_BucketResource))).

(** Whether a resource is among those the function has declared. *)
Definition declared (s : Server FunctionDependencies) (t : ResourceType)
    (n : string) : Prop :=
  (t, n) ∈ resources (function s).

(** Function A reads the bucket "uploads", function B writes it. *)
Definition A_reads : ResourceClaim :=
  {| kind := ResourceType_Bucket; rname := "uploads";
     requestingFunction := "A"; accessMode := "read" |}.
Definition B_writes : ResourceClaim :=
  {| kind := ResourceType_Bucket; rname := "uploads";
     requestingFunction := "B"; accessMode := "write" |}.

End sessions.

(** ** Listing the images (pkg/build/build.go, [List]) *)
Module images.
Import build.

Section WithImage.
Context {Image : Type}.

(** The engine's [ListImages(stackName, containerName)]. *)
Definition Lister : Type := string -> string -> list Image + error.

(** The body of both loops of [List], over what was printed and the
    images gathered: a listing that fails is printed
    ([fmt.Println("Error: ", err)]), one that succeeds is appended. *)
Definition list_unit (cr : Lister) (stack name : string)
    (acc : list error * list Image) : list error * list Image :=
  match cr stack name with
  | inr err => (fst acc ++ [err], snd acc)
  | inl imgs => (fst acc, snd acc ++ imgs)
  end.

(** [List]: the errors printed, and the images and error returned. *)
Definition List (discover : Lister + error) (s : Project)
  : list error * (option (list Image) * option error) :=
  match discover with
  | inr err => ([], (None, Some err))
  | inl cr =>
      let acc :=
        fold_left (fun acc f => list_unit cr (PName s) (Name f) acc)
          (Functions s) ([], []) in
      let acc :=
        fold_left (fun acc c => list_unit cr (PName s) (CName c) acc)
          (Containers s) acc in
      (fst acc, (Some (snd acc), None))
  end.

(** The names [List] asks the engine about, in order. *)
Definition unit_names (s : Project) : list string :=
  map Name (Functions s) ++ map CName (Containers s).

Definition listed (cr : Lister) (stack name : string) : list Image :=
  match cr stack name with inl imgs => imgs | inr _ => [] end.

Definition refused (cr : Lister) (stack name : string) : option error :=
  match cr stack name with inl _ => None | inr err => Some err end.

End WithImage.

End images.

(** ** What the build passes do, stated on their logs *)
Module passes.
Import build.

(** The handlers [CreateBaseDev] builds a dev image for when nothing
    fails: those whose language no earlier handler has. *)
Fixpoint first_of_each_language (seen : list string) (handlers : list string)
  : list string :=
  match handlers with
  | [] => []
  | h :: hs =>
      if decide (lang h ∈ seen) then first_of_each_language seen hs
      else h :: first_of_each_language (lang h :: seen) hs
  end.

(** What every call of the engine by [Create] looks like, given the
    descriptors created so far. *)
Definition Create_call (env : Env) (s : Project) (t : Target)
    (descriptors : list string) (b : BuildCall) : Prop :=
  bc_path b = Dir s
  /\ bc_args b = [("PROVIDER"%string, Provider t)]
  /\ match bc_unit b with
     | OfFunction f =>
         f ∈ Functions s
         /\ bc_tag b = ImageTagName env f s (Provider t)
         /\ exists fh, fh ∈ descriptors /\ bc_dockerfile b = filepath.Base fh
     | OfContainer c =>
         c ∈ Containers s
         /\ bc_tag b = CImageTagName env c s (Provider t)
         /\ bc_dockerfile b = Join env (Dir s) (Dockerfile c)
     end.

(** What every call of the engine by [CreateBaseDev] looks like. *)
Definition CreateBaseDev_call (s : Project) (descriptors : list string)
    (b : BuildCall) : Prop :=
  bc_path b = Dir s
  /\ bc_args b = []
  /\ exists f fh,
       bc_unit b = OfFunction f /\ f ∈ Functions s
       /\ fh ∈ descriptors /\ bc_dockerfile b = filepath.Base fh.

(** The keys of [imagesToBuild] are the languages in [seen]. *)
Definition languages_seen (seen : list string)
    (imagesToBuild : gmap string string) : Prop :=
  forall l, is_Some (imagesToBuild !! l) <-> l ∈ seen.

End passes.

(** ** Lists and structs as tables (pkg/output/format.go) *)
Module tabular.
Import output.

(** A slice or array seen through [reflect]: the type of its elements and
    its elements, [v.Index(i)]. *)
Record ListObject := { LElem : Type_; Items : list Value }.

(** [Value.Elem] of a pointer.  A pointer value carries its pointee as
    its first component; the nil pointer has none and [Elem] is the zero
    Value. *)
Definition Elem_of (v : Value) : Value :=
  match Fields_of v with
  | p :: _ => p
  | [] => mkValue {| TKind := Invalid; TString := ""; TFields := [] |} "" []
  end.

(** The row of a struct element: fields while the row is shorter than
    the names, a pointer field replaced by what it points to. *)
Definition listRow (names : Row) (v : Value) : Row :=
  fold_left
    (fun row field =>
       if (length row <? length names)%nat
       then match Kind_of field with
            | Ptr => row ++ [CValue (Elem_of field)]
            | _ => row ++ [CValue field]
            end
       else row)
    (Fields_of v) [].

(** The body of the loop of [printList]: the switch on the kind of
    [v.Index(i)]. *)
Definition appendItem (names : Row) (rows : list Row) (v : Value) : list Row :=
  match Kind_of v with
  | Struct => rows ++ [listRow names v]
  | Slice | Array | Func | Chan | Interface | Map => rows
  | _ => rows ++ [[CValue v]]
  end.

(** [printList]: the table it hands to [Render]; the header is appended
    only when there are names. *)
Definition printList (object : ListObject) : Table :=
  let names := namesFrom (LElem object) in
  {| header := match names with [] => [] | _ => [names] end;
     rows := fold_left (appendItem names) (Items object) [] |}.

(** [printStruct]: one row per field with a name; [t.Field(fi)] and
    [v.Field(fi)] run over the fields of the type and of the value
    together.  [ToUpper] is [strings.ToUpper]. *)
Definition printStruct (ToUpper : string -> string) (object : Value) : Table :=
  {| header := [];
     rows :=
       fold_left
         (fun rows fx =>
            let name := nameFromField (fst fx) in
            if nonempty name
            then rows ++ [[CString (ToUpper name); CValue (snd fx)]]
            else rows)
         (combine (TFields (Type_of object)) (Fields_of object)) [] |}.

(** The cell a row shows for a field. *)
Definition shown (field : Value) : Cell :=
  match Kind_of field with
  | Ptr => CValue (Elem_of field)
  | _ => CValue field
  end.

(** The row of an element of a list, in closed form: the first fields of
    a struct, as many as there are names, or else the element itself. *)
Definition item_row (names : Row) (v : Value) : Row :=
  match Kind_of v with
  | Struct => map shown (take (length names) (Fields_of v))
  | _ => [CValue v]
  end.

(** The value a tag's name is read from: the yaml tag, or else the json
    tag. *)
Definition tag_value (f : StructField) : string :=
  if nonempty (Tag_Get (Tag f) "yaml") then Tag_Get (Tag f) "yaml"
  else Tag_Get (Tag f) "json".

(** The names of the fields of a struct type, the unnamed ones left
    out. *)
Definition field_names (t : Type_) : list string :=
  filter (fun n => nonempty n = true) (map nameFromField (TFields t)).

(** A struct whose first field carries no tag:
    [struct { ID string; Name string `yaml:"name"` }]. *)
Definition image_type : Type_ :=
  {| TKind := Struct; TString := "Image";
     TFields := [ {| FieldName := "ID"; Tag := [] |};
                  {| FieldName := "Name";
                     Tag := [("yaml"%string, "name"%string)] |} ] |}.

Definition image (id name : string) : Value :=
  mkValue image_type "" [tables.str id; tables.str name].

(** map[string]Image{"a": {"6e83", "create"}}. *)
Definition images_by_key : MapObject :=
  {| Elem := image_type;
     MapRange := [tables.str "a"];
     MapIndex _ := image "6e83" "create" |}.

End tabular.

(** ** The project file (pkg/project/config.go) *)
Module config.

Record Config := { Name : string; Dir : string; Handlers : list string }.

Section WithBytes.
Context {Bytes : Type}.

(** What [ToFile] and [FromFile] call outside their package.
    [read_error] and [write_error] give the error the file system
    answers with at a path, if any; [not_exist] is the error of reading a
    file that is not there. *)
Record OS := {
  Getwd : string + error;
  Abs : string -> string + error;
  Join : string -> string -> string;
  Marshal : Config -> Bytes + error;
  Unmarshal : Bytes -> Config -> Config + error;
  read_error : string -> option error;
  write_error : string -> option error;
  not_exist : string -> error }.

(** [ioutil.ReadFile]. *)
Definition ReadFile (os : OS) (fs : gmap string Bytes) (path : string)
  : Bytes + error :=
  match read_error os path with
  | Some err => inr err
  | None =>
      match fs !! path with
      | Some b => inl b
      | None => inr (not_exist os path)
      end
  end.

(** [ioutil.WriteFile]: the file holds the data, or the write is
    refused and the file system is as it was. *)
Definition WriteFile (os : OS) (fs : gmap string Bytes) (path : string) (data : Bytes)
  : gmap string Bytes * option error :=
  match write_error os path with
  | Some err => (fs, Some err)
  | None => (<[ path := data ]> fs, None)
  end.

Definition is_empty (s : string) : bool := String.eqb s "".

(** [Config.ToFile]. *)
Definition ToFile (os : OS) (p : Config) (fs : gmap string Bytes)
  : gmap string Bytes * option error :=
  if is_empty (Dir p) || is_empty (Name p)
  then (fs, Some (errors_New "fields Dir and Name must be provided"))
  else
    match Marshal os p with
    | inr err => (fs, Some err)
    | inl b => WriteFile os fs (Join os (Dir p) "nitric.yaml") b
    end.

(** The config [FromFile] generates when it cannot read the file. *)
Definition generated (absDir : string) : Config :=
  {| Name := filepath.Base absDir;
     Dir := absDir;
     Handlers := ["functions/*.ts"%string; "functions/*.js"%string;
                  "functions/*/*.go"%string] |}.

(** [FromFile]: the file system afterwards, and the config and error
    returned. *)
Definition FromFile (os : OS) (fs : gmap string Bytes)
  : gmap string Bytes * (option Config * option error) :=
  match Getwd os with
  | inr err => (fs, (None, Some err))
  | inl wd =>
      match Abs os wd with
      | inr err => (fs, (None, Some err))
      | inl absDir =>
          let p := {| Name := ""; Dir := absDir; Handlers := [] |} in
          match ReadFile os fs (Join os wd "nitric.yaml") with
          | inr _ =>
              let p := generated absDir in
              let '(fs', err) := ToFile os p fs in
              (fs', (Some p, err))
          | inl yamlFile =>
              match Unmarshal os yamlFile p with
              | inr err => (fs, (None, Some err))
              | inl p' => (fs, (Some p', None))
              end
          end
      end
  end.

End WithBytes.
Arguments OS Bytes : clear implicits.

(** A file system of texts with a yaml that keeps the name and the
    handlers, to run [FromFile] on. *)
Definition plain : OS (string * list string) :=
  {| Getwd := inl "/src/shop"%string;
     Abs wd := inl wd;
     Join dir file := dir +:+ "/" +:+ file;
     Marshal p := inl (Name p, Handlers p);
     Unmarshal b p := inl {| Name := fst b; Dir := Dir p; Handlers := snd b |};
     read_error _ := None;
     write_error _ := None;
     not_exist path := errors_New ("open " +:+ path +:+ ": no such file or directory") |}.

End config.

(** ** The deployment command (pkg/cmd/deployment/root.go) *)
Module deployment.
Import build.

(** [types.Provider], as far as the command calls it. *)
Record types_Provider := { Apply : string -> option error }.

(** What the command calls outside its package. *)
Record Packages := {
  target_FromOptions : Target + error;
  stack_FromOptions : Project + error;
  stack_FromGlobArgs : list string -> Project + error;
  Populate : Project -> Project + error;
  NewProvider : Project -> Target -> types_Provider + error }.

(** How a run of the command ends: [cobra.CheckErr] prints a non-nil
    error and exits the process; a panic of the build pass goes on
    through [Run]. *)
Inductive End :=
  | Exit (err : error)
  | Done
  | Panics.

(** What a run did: the build pass it ran, with the state the pass left,
    if it came to it; the deployment name [Apply] was called with, if it
    came to that; and how it ended. *)
Record Run := {
  built : option (Project * Target * State);
  applied : option string;
  ending : End }.

Definition exits (err : error) : Run :=
  {| built := None; applied := None; ending := Exit err |}.

(** The stack of [deploymentApplyCmd]: [stack.FromOptions], and when
    that fails and there are arguments, the stack of the handler globs
    with the configuration gathered from its code.  An error is the one
    the next [cobra.CheckErr] exits with. *)
Definition stack_of (pk : Packages) (args : list string) : Project + error :=
  match stack_FromOptions pk with
  | inl s => inl s
  | inr err =>
      if (0 <? length args)%nat
      then match stack_FromGlobArgs pk args with
           | inr err => inr err
           | inl s => Populate pk s
           end
      else inr err
  end.

(** [deploymentApplyCmd.Run], in a project directory holding [fs]. *)
Definition deploymentApply (pk : Packages) (env : Env) (deploymentName : string)
    (args : list string) (fs : gset string) : Run :=
  match target_FromOptions pk with
  | inr err => exits err
  | inl t =>
      match stack_of pk args with
      | inr err => exits err
      | inl s =>
          match NewProvider pk s t with
          | inr err => exits err
          | inl p =>
              let '(st, r) := Create env s t fs in
              match r with
              | Panicked =>
                  {| built := Some (s, t, st); applied := None; ending := Panics |}
              | Returned (Some err) =>
                  {| built := Some (s, t, st); applied := None; ending := Exit err |}
              | Returned None =>
                  {| built := Some (s, t, st); applied := Some deploymentName;
                     ending := match Apply p deploymentName with
                               | Some err => Exit err
                               | None => Done
                               end |}
              end
          end
      end
  end.

(** The packages around the shop project: options that name the project
    and the aws target, and a provider that applies anything. *)
Definition shop_packages : Packages :=
  {| target_FromOptions := inl shop.aws;
     stack_FromOptions := inl shop.project;
     stack_FromGlobArgs _ := inr (errors_New "no files match the handler glob");
     Populate s := inl s;
     NewProvider _ _ := inl {| Apply _ := None |} |}.

End deployment.

(** * Properties *)

#[local] Set Warnings "-clear-no-such-hyp".

(** ** The capture server *)
Section ServerProperties.
Import pb codeconfig.
Context {FD : Type} `{Accumulator FD}.

Lemma Recv_message (stream : Stream) cm rest :
  pending stream = Msg cm :: rest ->
  Recv stream =
    (inl cm, {| pending := rest; sent := sent stream; status := status stream |}).
Proof. intros Hp. unfold Recv. now rewrite Hp. Qed.

(** C1: when the first message received on the stream is not an
    InitRequest, [TriggerStream] returns the FailedPrecondition status
    "first message must be InitRequest" (the spec's ProtocolViolation);
    it has read that one message and no other, the stream is closed with
    that status, nothing was sent, and the server's accumulator is the one
    it started with. *)
Theorem TriggerStream_rejects_non_init
    (s : Server FD) (stream : Stream) (cm : ClientMessage) (rest : list RecvEvent) :
  pending stream = Msg cm :: rest ->
  GetInitRequest cm = None ->
  let violation :=
    status_Error FailedPrecondition "first message must be InitRequest" in
  TriggerStream s stream =
    (s, {| pending := rest; sent := sent stream; status := status stream |},
     Some violation)
  /\ serve_TriggerStream s stream =
    (s, {| pending := rest; sent := sent stream; status := Some (Some violation) |}).
Proof.
  intros Hp Hir violation.
  assert (Hts : TriggerStream s stream =
    (s, {| pending := rest; sent := sent stream; status := status stream |},
     Some violation)).
  { unfold TriggerStream. rewrite (Recv_message _ _ _ Hp), Hir. reflexivity. }
  split; [exact Hts|].
  unfold serve_TriggerStream. rewrite Hts. reflexivity.
Qed.

(** C4: when the first message is an InitRequest of an Api, Schedule or
    Subscription worker, the server makes the one matching call on the
    function's accumulator ([AddApiHandler], [AddScheduleHandler] or
    [AddSubscriptionHandler], with that worker), and the stream is closed
    with what the call returned: one message read, the rest left unread,
    nothing sent. *)
Theorem TriggerStream_records_the_binding
    (s : Server FD) (stream : Stream) (cm : ClientMessage) (ir : InitRequest)
    (rest : list RecvEvent) :
  pending stream = Msg cm :: rest ->
  GetInitRequest cm = Some ir ->
  let closed_with r :=
    ({| name := name s; function := fst r |},
     {| pending := rest; sent := sent stream; status := Some (snd r) |}) in
  match Worker ir with
  | InitRequest_Api w =>
      serve_TriggerStream s stream = closed_with (AddApiHandler w (function s))
  | InitRequest_Schedule w =>
      serve_TriggerStream s stream = closed_with (AddScheduleHandler w (function s))
  | InitRequest_Subscription w =>
      serve_TriggerStream s stream =
        closed_with (AddSubscriptionHandler w (function s))
  | Worker_nil => True
  end.
Proof.
  intros Hp Hir closed_with.
  unfold serve_TriggerStream, TriggerStream.
  rewrite (Recv_message _ _ _ Hp), Hir.
  destruct (Worker ir); try exact I; reflexivity.
Qed.

(** C6: when the first message is an InitRequest with none of the Api,
    Schedule and Subscription roles, the server calls no handler method:
    the accumulator is unchanged, and the stream is closed with a nil
    error after that one message. *)
Theorem TriggerStream_plain_function
    (s : Server FD) (stream : Stream) (cm : ClientMessage) (ir : InitRequest)
    (rest : list RecvEvent) :
  pending stream = Msg cm :: rest ->
  GetInitRequest cm = Some ir ->
  Worker ir = Worker_nil ->
  TriggerStream s stream =
    (s, {| pending := rest; sent := sent stream; status := status stream |}, None)
  /\ serve_TriggerStream s stream =
    (s, {| pending := rest; sent := sent stream; status := Some None |}).
Proof.
  intros Hp Hir Hw.
  assert (Hts : TriggerStream s stream =
    (s, {| pending := rest; sent := sent stream; status := status stream |}, None)).
  { unfold TriggerStream. rewrite (Recv_message _ _ _ Hp), Hir, Hw. reflexivity. }
  split; [exact Hts|].
  unfold serve_TriggerStream. rewrite Hts. reflexivity.
Qed.

(** C2, as the code has it: a declaration whose kind is none of Bucket,
    Collection, Queue, Topic, Policy, Secret and Api matches no case of
    the switch; [Declare] returns an empty response and a nil error, and
    the accumulator is unchanged. *)
Theorem Server_Declare_unrecognized_kind
    (s : Server FD) (req : ResourceDeclareRequest) (res : Resource) (n : Z) :
  DResource req = Some res ->
  Type_ res = ResourceType_Other n ->
  Server_Declare s req = (s, Returned (Build_ResourceDeclareResponse, None)).
Proof.
  intros Hres Hty. unfold Server_Declare. rewrite Hres, Hty. reflexivity.
Qed.

(** C7, as the code has it: [Details] looks at the kind of the queried
    resource alone.  For an Api it returns the dev details of that name,
    whatever has been declared; for every other kind it returns the error
    "unsupported resource type". *)
Theorem Details_by_kind
    (s : Server FD) (req : ResourceDetailsRequest) (res : Resource) :
  QResource req = Some res ->
  (Type_ res = ResourceType_Api ->
   Details s req =
     Returned
       (Some {| Provider := "dev"; Service := "Api"; RId := Name res;
                pb.Details :=
                  ResourceDetailsResponse_Api
                    {| Url := "http://localhost:50051/apis/" +:+ Name res |} |},
        None))
  /\ (Type_ res <> ResourceType_Api ->
      Details s req =
        Returned (None,
                  Some (fmt_Errorf "unsupported resource type %s" (Type_ res)))).
Proof.
  intros Hres. unfold Details. rewrite Hres.
  split; intros Hty.
  - rewrite Hty. reflexivity.
  - destruct (Type_ res); try reflexivity. congruence.
Qed.

End ServerProperties.

(** ** The sessions above, run *)
Section ServerRuns.
Import pb codeconfig graph sessions.

Lemma TriggerStream_rejects_non_init_run :
  pending (open_stream [Msg response_first]) = [Msg response_first]
  /\ GetInitRequest response_first = None
  /\ serve_TriggerStream fresh (open_stream [Msg response_first]) =
       (fresh,
        {| pending := []; sent := [];
           status := Some (Some (status_Error FailedPrecondition
                                   "first message must be InitRequest")) |}).
Proof.
  split; [reflexivity | split; [reflexivity |]].
  exact (proj2 (TriggerStream_rejects_non_init fresh
                  (open_stream [Msg response_first]) response_first []
                  eq_refl eq_refl)).
Defined.

Lemma TriggerStream_records_the_binding_run :
  pending (open_stream [Msg (init (InitRequest_Api route)); Msg response_first])
    = [Msg (init (InitRequest_Api route)); Msg response_first]
  /\ GetInitRequest (init (InitRequest_Api route))
     = Some {| Worker := InitRequest_Api route |}
  /\ serve_TriggerStream fresh
       (open_stream [Msg (init (InitRequest_Api route)); Msg response_first]) =
       ({| name := "orders";
           function := {| apis := [route]; schedules := []; subscriptions := [];
                          resources := ∅; policies := [] |} |},
        {| pending := [Msg response_first]; sent := []; status := Some None |}).
Proof.
  split; [reflexivity | split; [reflexivity |]].
  exact (TriggerStream_records_the_binding fresh
           (open_stream [Msg (init (InitRequest_Api route)); Msg response_first])
           (init (InitRequest_Api route)) {| Worker := InitRequest_Api route |}
           [Msg response_first] eq_refl eq_refl).
Defined.

Lemma TriggerStream_plain_function_run :
  pending (open_stream [Msg (init Worker_nil)]) = [Msg (init Worker_nil)]
  /\ GetInitRequest (init Worker_nil) = Some {| Worker := Worker_nil |}
  /\ trigger_bindings (function (fst (serve_TriggerStream fresh
                                        (open_stream [Msg (init Worker_nil)])))) = 0
  /\ serve_TriggerStream fresh (open_stream [Msg (init Worker_nil)]) =
       (fresh, {| pending := []; sent := []; status := Some None |}).
Proof.
  split; [reflexivity | split; [reflexivity | split; [reflexivity |]]].
  exact (proj2 (TriggerStream_plain_function fresh
                  (open_stream [Msg (init Worker_nil)]) (init Worker_nil)
                  {| Worker := Worker_nil |} [] eq_refl eq_refl eq_refl)).
Defined.

(** The claim of C2 fails on a declaration of enum number 1: [Declare]
    returns no error. *)
Lemma Server_Declare_unrecognized_kind_returns_no_error :
  ~ (exists resp e,
       snd (Server_Declare with_bucket
              (declare_of (ResourceType_Other 1) "worker" Config_nil))
       = Returned (resp, Some e)).
Proof. intros (resp & e & Hret). discriminate Hret. Qed.

Lemma Server_Declare_unrecognized_kind_run :
  DResource (declare_of (ResourceType_Other 1) "worker" Config_nil)
    = Some {| Type_ := ResourceType_Other 1; Name := "worker" |}
  /\ Server_Declare with_bucket (declare_of (ResourceType_Other 1) "worker" Config_nil)
     = (with_bucket, Returned (Build_ResourceDeclareResponse, None)).
Proof.
  split; [reflexivity |].
  exact (Server_Declare_unrecognized_kind with_bucket
           (declare_of (ResourceType_Other 1) "worker" Config_nil)
           {| Type_ := ResourceType_Other 1; Name := "worker" |} 1
           eq_refl eq_refl).
Defined.

(** The claim of C7 fails on a server on which nothing was declared: the
    query for the Api "shop" is answered with details. *)
Lemma Details_answers_undeclared_api :
  ~ ((exists resp,
        Details fresh (details_of ResourceType_Api "shop")
        = Returned (Some resp, None))
     <-> declared fresh ResourceType_Api "shop").
Proof.
  intros [Hdecl _].
  assert (Hd : declared fresh ResourceType_Api "shop")
    by (apply Hdecl; eexists; reflexivity).
  unfold declared in Hd. simpl in Hd. set_solver.
Qed.

(** And the other way round: a declared bucket is not described. *)
Lemma Details_rejects_declared_bucket :
  declared with_bucket ResourceType_Bucket "uploads"
  /\ Details with_bucket (details_of ResourceType_Bucket "uploads")
     = Returned (None, Some (fmt_Errorf "unsupported resource type %s"
                               ResourceType_Bucket)).
Proof.
  split; [| reflexivity].
  unfold declared. simpl. set_solver.
Qed.

Lemma Details_by_kind_run :
  QResource (details_of ResourceType_Api "shop")
    = Some {| Type_ := ResourceType_Api; Name := "shop" |}
  /\ Details fresh (details_of ResourceType_Api "shop") =
     Returned
       (Some {| Provider := "dev"; Service := "Api"; RId := "shop";
                pb.Details :=
                  ResourceDetailsResponse_Api
                    {| Url := "http://localhost:50051/apis/shop" |} |},
        None).
Proof.
  split; [reflexivity |].
  exact (proj1 (Details_by_kind fresh (details_of ResourceType_Api "shop")
                  {| Type_ := ResourceType_Api; Name := "shop" |} eq_refl)
           eq_refl).
Defined.

End ServerRuns.

(** ** The merge of the dependency graph *)
Section MergeProperties.
Import pb graph.
Implicit Types (g : DependencyGraph) (c : ResourceClaim)
  (k : ResourceType * string) (p : string * string).

Lemma add_claim_entry c g k :
  is_Some (add_claim c g !! k) <-> claim_key c = k \/ is_Some (g !! k).
Proof.
  unfold add_claim. destruct (decide (claim_key c = k)) as [->|Hne].
  - rewrite lookup_insert_eq. split; [auto | eauto].
  - rewrite lookup_insert_ne by done. tauto.
Qed.

Lemma add_claim_policies c g k p :
  p ∈ policies_at (add_claim c g) k <->
  (claim_key c = k /\ claim_policy c = p) \/ p ∈ policies_at g k.
Proof.
  unfold policies_at, add_claim. destruct (decide (claim_key c = k)) as [->|Hne].
  - rewrite lookup_insert_eq. simpl. set_solver.
  - rewrite lookup_insert_ne by done. set_solver.
Qed.

Lemma merge_into_entry claims g k :
  is_Some (merge_into g claims !! k) <->
  is_Some (g !! k) \/ exists c, c ∈ claims /\ claim_key c = k.
Proof.
  revert g. induction claims as [|c claims IH]; intros g; simpl.
  - split; [auto | intros [?|(c & Hc & _)]; [done | inversion Hc]].
  - rewrite IH, add_claim_entry. split.
    + intros [[Hk|Hg]|(c' & Hc' & Hk)]; [right; exists c | left | right; exists c'];
        set_solver.
    + intros [Hg|(c' & Hc' & Hk)]; [tauto|].
      apply elem_of_cons in Hc' as [->|Hc']; [tauto | right; eauto].
Qed.

Lemma merge_into_policies claims g k p :
  p ∈ policies_at (merge_into g claims) k <->
  p ∈ policies_at g k
  \/ exists c, c ∈ claims /\ claim_key c = k /\ claim_policy c = p.
Proof.
  revert g. induction claims as [|c claims IH]; intros g; simpl.
  - split; [auto | intros [?|(c & Hc & _)]; [done | inversion Hc]].
  - rewrite IH, add_claim_policies. split.
    + intros [[[Hk Hp]|Hg]|(c' & Hc' & Hk & Hp)];
        [right; exists c | left | right; exists c']; set_solver.
    + intros [Hg|(c' & Hc' & Hk & Hp)]; [tauto|].
      apply elem_of_cons in Hc' as [->|Hc']; [tauto | right; eauto].
Qed.

(** Two graphs with the same entries and the same policy sets are the
    same graph. *)
Lemma graph_eq g1 g2 :
  (forall k, is_Some (g1 !! k) <-> is_Some (g2 !! k)) ->
  (forall k p, p ∈ policies_at g1 k <-> p ∈ policies_at g2 k) ->
  g1 = g2.
Proof.
  intros Hdom Hpol. apply map_eq. intros k.
  specialize (Hdom k). specialize (Hpol k). unfold policies_at in Hpol.
  destruct (g1 !! k) as [s1|] eqn:E1, (g2 !! k) as [s2|] eqn:E2; simpl in *.
  - f_equal. apply set_eq. exact Hpol.
  - destruct Hdom as [Hd _]. destruct Hd as [? ?]; [eauto | discriminate].
  - destruct Hdom as [_ Hd]. destruct Hd as [? ?]; [eauto | discriminate].
  - reflexivity.
Qed.

(** The graph depends on the set of claims merged, not on the list. *)
Lemma merge_into_same_claims g (l1 l2 : list ResourceClaim) :
  (forall c, c ∈ l1 <-> c ∈ l2) -> merge_into g l1 = merge_into g l2.
Proof.
  intros Hsame. apply graph_eq.
  - intros k. rewrite !merge_into_entry. split;
      (intros [?|(c & Hc & Hk)]; [auto | right; exists c; split; [apply Hsame|]; done]).
  - intros k p. rewrite !merge_into_policies. split;
      (intros [?|(c & Hc & Hk)]; [auto | right; exists c; split; [apply Hsame|]; done]).
Qed.

(** C3: the merge of section 4.5 gives the same graph for the same
    claims in any order (commutative), also when started from a graph
    already built and whatever the order in which the functions completed,
    and merging claims that are already merged changes nothing
    (idempotent). *)
Theorem merge_commutative_idempotent :
  (forall l1 l2 : list ResourceClaim, l1 ≡ₚ l2 -> merge l1 = merge l2)
  /\ (forall g (l1 l2 : list ResourceClaim),
        merge_into g (l1 ++ l2) = merge_into g (l2 ++ l1))
  /\ (forall fs1 fs2 : list (list ResourceClaim),
        fs1 ≡ₚ fs2 -> merge_functions fs1 = merge_functions fs2)
  /\ (forall l : list ResourceClaim, merge (l ++ l) = merge l)
  /\ (forall l : list ResourceClaim, merge_into (merge l) l = merge l).
Proof.
  assert (Hdup : forall l : list ResourceClaim, merge (l ++ l) = merge l).
  { intros l. apply merge_into_same_claims. intros c. set_solver. }
  split; [|split; [|split; [|split]]].
  - intros l1 l2 Hperm. apply merge_into_same_claims.
    intros c. now rewrite Hperm.
  - intros g l1 l2. apply merge_into_same_claims. intros c. set_solver.
  - intros fs1 fs2 Hperm. apply merge_into_same_claims. intros c.
    rewrite !list_elem_of_In, !in_concat.
    split; intros (l & Hl & Hc); exists l; (split; [|exact Hc]);
      apply list_elem_of_In; apply list_elem_of_In in Hl;
      [now rewrite <- Hperm | now rewrite Hperm].
  - exact Hdup.
  - intros l. rewrite <- (Hdup l) at 2. unfold merge, merge_into.
    now rewrite fold_left_app.
Qed.

(** The example of section 8: one entry for the bucket, with both
    policies. *)
Lemma merge_uploads_example :
  merge [sessions.A_reads; sessions.B_writes]
    = {[ (ResourceType_Bucket, "uploads"%string)
         := {[ ("A"%string, "read"%string); ("B"%string, "write"%string) ]} ]}.
Proof.
  apply graph_eq.
  - intros k. unfold merge. rewrite merge_into_entry, lookup_empty.
    rewrite lookup_singleton_is_Some. split.
    + intros [[? [=]]|(c & Hc & <-)].
      apply elem_of_cons in Hc as [->|Hc]; [reflexivity|].
      apply list_elem_of_singleton in Hc as ->. reflexivity.
    + intros <-. right. exists sessions.A_reads. split; [left | reflexivity].
  - intros k p. unfold merge. rewrite merge_into_policies.
    unfold policies_at at 1. rewrite lookup_empty. simpl.
    unfold policies_at.
    destruct (decide ((ResourceType_Bucket, "uploads"%string) = k)) as [<-|Hne].
    + rewrite lookup_singleton_eq. simpl. split.
      * intros [Hp|(c & Hc & _ & <-)]; [set_solver|].
        apply elem_of_cons in Hc as [->|Hc]; [set_solver|].
        apply list_elem_of_singleton in Hc as ->. set_solver.
      * intros Hp. right. apply elem_of_union in Hp as [Hp|Hp];
          apply elem_of_singleton in Hp as ->;
          [exists sessions.A_reads | exists sessions.B_writes];
          (split; [set_solver | split; reflexivity]).
    + rewrite lookup_singleton_ne by done. simpl. split.
      * intros [Hp|(c & Hc & Hk & _)]; [set_solver|].
        exfalso. apply Hne. rewrite <- Hk.
        apply elem_of_cons in Hc as [->|Hc]; [reflexivity|].
        apply list_elem_of_singleton in Hc as ->. reflexivity.
      * set_solver.
Qed.

(** In whichever order the two functions are merged, and however often. *)
Lemma merge_commutative_idempotent_run :
  [sessions.B_writes; sessions.A_reads] ≡ₚ [sessions.A_reads; sessions.B_writes]
  /\ merge [sessions.B_writes; sessions.A_reads]
     = merge [sessions.A_reads; sessions.B_writes]
  /\ merge ([sessions.A_reads; sessions.B_writes]
            ++ [sessions.A_reads; sessions.B_writes])
     = merge [sessions.A_reads; sessions.B_writes].
Proof.
  split; [apply perm_swap|].
  split.
  - exact (proj1 merge_commutative_idempotent _ _ (perm_swap _ _ _)).
  - exact (proj1 (proj2 (proj2 (proj2 merge_commutative_idempotent))) _).
Defined.

End MergeProperties.

(** ** The image build passes *)
Section BuildProperties.
Import build.

(** *** Statements and loops *)

Lemma keeps_ret (P : State -> Prop) {A} (a : A) : keeps P (ret a).
Proof. intros st st' r HP [= <- <-]. exact HP. Qed.

Lemma keeps_bind (P : State -> Prop) {A B} (m : M A) (k : A -> M B) :
  keeps P m -> (forall a, keeps P (k a)) -> keeps P (bind m k).
Proof.
  intros Hm Hk st st' r HP. unfold bind.
  destruct (m st) as [st1 [a|err|]] eqn:Hst.
  - apply (Hk a). eapply Hm; eauto.
  - intros [= <- <-]. eapply Hm; eauto.
  - intros [= <- <-]. eapply Hm; eauto.
Qed.

Lemma keeps_attempt (P : State -> Prop) {A} (c : Outcome (A + error)) :
  keeps P (attempt c).
Proof. intros st st' r HP [= <- <-]. exact HP. Qed.

Lemma keeps_check (P : State -> Prop) (c : Outcome (option error)) :
  keeps P (check c).
Proof. intros st st' r HP [= <- <-]. exact HP. Qed.

Lemma keeps_range (P : State -> Prop) {A B} (l : list A) (body : A -> B -> M B) b :
  (forall x b, keeps P (body x b)) -> keeps P (range l body b).
Proof.
  intros Hbody. revert b. induction l as [|x l IH]; intros b; simpl.
  - apply keeps_ret.
  - apply keeps_bind; [apply Hbody | intros b'; apply IH].
Qed.

(** A loop with an invariant [Q] on its variables and the state: when
    each iteration that goes on keeps [Q] and each iteration that ends
    the pass gives [P], the loop gives [Q] when it goes on and [P] when it
    ends the pass. *)
Lemma range_invariant {A B} (Q : B -> State -> Prop) (P : State -> Prop)
    (l : list A) (body : A -> B -> M B) :
  (forall x b st st' r, Q b st -> body x b st = (st', r) ->
     match r with Next b' => Q b' st' | _ => P st' end) ->
  forall b st st' r, Q b st -> range l body b st = (st', r) ->
    match r with Next b' => Q b' st' | _ => P st' end.
Proof.
  intros Hbody. induction l as [|x l IH]; intros b st st' r HQ; simpl.
  - intros [= <- <-]. exact HQ.
  - unfold bind. destruct (body x b st) as [st1 [b1|err|]] eqn:Hx;
      pose proof (Hbody _ _ _ _ _ HQ Hx) as H1; simpl in H1.
    + apply IH. exact H1.
    + intros [= <- <-]. exact H1.
    + intros [= <- <-]. exact H1.
Qed.

(** *** Descriptors *)

Lemma tracked_start fs : tracked fs (start fs).
Proof. split; simpl; set_solver. Qed.

(** Creating a descriptor and deferring its removal, the first two
    statements of both loop bodies. *)
Lemma keeps_tracked_descriptor fs env dir name (d : string -> Deferred)
    {B} (k : string -> M B) :
  (forall fh, file_of (d fh) = fh) ->
  (forall fh, keeps (tracked fs) (k fh)) ->
  keeps (tracked fs) (fh <- dynamicDockerfile env dir name ;; defer (d fh) ;; k fh).
Proof.
  intros Hd' Hk st st' r [Hf Hd]. unfold bind, dynamicDockerfile, defer.
  destruct (CreateTemp env (files st) dir _) as [[fh|err]|].
  - apply (Hk fh). split; simpl.
    + rewrite Hf, list_to_set_app_L. set_solver.
    + rewrite Hd' , Hd, list_to_set_app_L. set_solver.
  - intros [= <- <-]. now split.
  - intros [= <- <-]. now split.
Qed.

Lemma keeps_tracked_Close fs fh : keeps (tracked fs) (Close fh).
Proof. intros st st' r [Hf Hd]. unfold Close. intros [= <- <-]. now split. Qed.

Lemma keeps_tracked_build_image fs cr u dockerfile path tag args :
  keeps (tracked fs) (build_image cr u dockerfile path tag args).
Proof.
  intros st st' r [Hf Hd]. unfold build_image, check.
  intros [= <- <-]. now split.
Qed.

Lemma Create_function_tracked fs env cr s t f :
  keeps (tracked fs) (Create_function env cr s t f).
Proof.
  unfold Create_function.
  apply (keeps_tracked_descriptor fs env _ _ Remove); [reflexivity | intros fh].
  apply keeps_bind; [apply keeps_attempt | intros rt].
  apply keeps_bind; [apply keeps_check | intros _].
  apply keeps_bind; [apply keeps_tracked_Close | intros _].
  apply keeps_tracked_build_image.
Qed.

Lemma CreateBaseDev_function_tracked fs env ce s f m :
  keeps (tracked fs) (CreateBaseDev_function env ce s f m).
Proof.
  unfold CreateBaseDev_function.
  apply keeps_bind; [apply keeps_attempt | intros rt].
  destruct (m !! lang (Handler f)); [apply keeps_ret|].
  apply (keeps_tracked_descriptor fs env _ _ Close_Remove); [reflexivity | intros fh].
  apply keeps_bind; [apply keeps_check | intros _].
  apply keeps_bind; [apply keeps_tracked_build_image | intros _].
  apply keeps_ret.
Qed.

Lemma Create_body_tracked fs env s t : keeps (tracked fs) (Create_body env s t).
Proof.
  unfold Create_body.
  apply keeps_bind; [apply keeps_attempt | intros cr].
  apply keeps_bind; [| intros _].
  - apply keeps_range. intros f _. apply Create_function_tracked.
  - apply keeps_range. intros c _. apply keeps_tracked_build_image.
Qed.

Lemma CreateBaseDev_body_tracked fs env s :
  keeps (tracked fs) (CreateBaseDev_body env s).
Proof.
  unfold CreateBaseDev_body.
  apply keeps_bind; [apply keeps_attempt | intros ce].
  apply keeps_bind; [| intros _; apply keeps_ret].
  apply keeps_range. intros f m. apply CreateBaseDev_function_tracked.
Qed.

(** The deferred calls touch neither log. *)
Lemma run_one_logs env st d :
  created (run_one env st d) = created st /\ builds (run_one env st d) = builds st.
Proof.
  destruct d as [fh|fh]; unfold run_one, os_Remove;
    match goal with |- context [if ?b then _ else _] => destruct b end;
    now split.
Qed.

Lemma run_deferred_logs env st :
  created (run_deferred env st) = created st
  /\ builds (run_deferred env st) = builds st.
Proof.
  unfold run_deferred. simpl. generalize (deferred st) as l.
  intros l. revert st. induction l as [|d l IH]; intros st; simpl.
  - now split.
  - destruct (IH (run_one env st d)) as [-> ->]. apply run_one_logs.
Qed.

Lemma run_deferred_built_tags env st :
  built_tags (run_deferred env st) = built_tags st.
Proof. unfold built_tags. now rewrite (proj2 (run_deferred_logs env st)). Qed.

Lemma run_deferred_built_handlers env st :
  built_handlers (run_deferred env st) = built_handlers st.
Proof. unfold built_handlers. now rewrite (proj2 (run_deferred_logs env st)). Qed.

(** How a call ends, and what it leaves. *)
Lemma call_ends env (body : M unit) fs :
  call env body fs
  = (run_deferred env (fst (body (start fs))), ending_of (snd (body (start fs)))).
Proof. unfold call. now destruct (body (start fs)) as [st [[]|err|]]. Qed.

(** Deferred removals that can all be done take the files of the
    deferred calls out of the directory. *)
Lemma run_all_removable env (l : list Deferred) (st : State) :
  (forall fh, Remove fh ∈ l -> fh ∈ opened st -> RemovesOpenFiles env = true) ->
  files (fold_left (run_one env) l st)
  = files st ∖ list_to_set (map file_of l).
Proof.
  revert st. induction l as [|d l IH]; intros st Hl; simpl.
  - set_solver.
  - assert (Hd : files (run_one env st d) = files st ∖ {[ file_of d ]}
                 /\ opened (run_one env st d) ⊆ opened st).
    { destruct d as [fh|fh]; unfold run_one, os_Remove, Close; simpl.
      - destruct (bool_decide (fh ∈ opened st)) eqn:Hopen; simpl.
        + apply bool_decide_eq_true in Hopen.
          rewrite (Hl fh (list_elem_of_here _ _) Hopen). simpl. now split.
        + now split.
      - rewrite bool_decide_eq_false_2 by set_solver. simpl.
        split; [reflexivity | set_solver]. }
    destruct Hd as [Hfiles Hopened].
    rewrite IH, Hfiles; [set_solver|].
    intros fh Hin Hopen. apply (Hl fh); [now apply list_elem_of_further|].
    now apply Hopened.
Qed.

(** When the deferred removals have run and could all be done, what is
    left of the directory is what was there before the pass, less the
    names of the descriptors the pass created. *)
Lemma run_deferred_tracked env fs st :
  tracked fs st -> removable env st ->
  files (run_deferred env st) = fs ∖ list_to_set (created (run_deferred env st)).
Proof.
  intros [Hf Hd] Hrem. rewrite (proj1 (run_deferred_logs env st)).
  unfold run_deferred. simpl.
  rewrite (run_all_removable env _ st Hrem), Hf, Hd. set_solver.
Qed.

(** A call ends with the deferred removals, whether its statements go to
    their end, return an error or panic. *)
Lemma call_runs_deferred env fs (body : M unit) :
  keeps (tracked fs) body ->
  tracked fs (fst (body (start fs)))
  /\ fst (call env body fs) = run_deferred env (fst (body (start fs))).
Proof.
  intros Hbody. rewrite call_ends. split; [|reflexivity].
  destruct (body (start fs)) as [st r] eqn:Hst.
  eapply Hbody; [apply tracked_start | exact Hst].
Qed.

(** An iteration of [Create] that goes on has closed its descriptor. *)
Lemma Create_function_closes env cr s t f st st' :
  opened st = ∅ ->
  Create_function env cr s t f st = (st', Next tt) -> opened st' = ∅.
Proof.
  intros Hopen. unfold Create_function, bind, dynamicDockerfile, defer, attempt.
  destruct (CreateTemp env (files st) (Dir s) _) as [[fh|err]|]; [| discriminate ..].
  destruct (NewRunTimeFromHandler env (Handler f)) as [[rt|err]|];
    [| discriminate ..].
  unfold check at 1. destruct (FunctionDockerfile rt _ _ _ _) as [[err|]|];
    [discriminate | | discriminate].
  unfold Close, build_image, check. simpl. intros [= <- _]. simpl.
  rewrite Hopen. set_solver.
Qed.

(** When [Create] has run to its end no descriptor is open. *)
Lemma Create_body_closes env s t fs st :
  Create_body env s t (start fs) = (st, Next tt) -> opened st = ∅.
Proof.
  unfold Create_body, bind, attempt.
  destruct (Discover env) as [[cr|err]|]; [| discriminate ..].
  destruct (range (Functions s) _ tt (start fs)) as [st1 r1] eqn:Hfun.
  pose proof (range_invariant (fun _ st => opened st = ∅) (fun _ => True)
                (Functions s) (fun f _ => Create_function env cr s t f)) as Hinv.
  specialize (Hinv (fun f b st st' r Hopen Hx =>
    match r as r0 return Create_function env cr s t f st = (st', r0) ->
                         match r0 with Next _ => opened st' = ∅ | _ => True end
    with
    | Next tt => Create_function_closes env cr s t f st st' Hopen
    | _ => fun _ => I
    end Hx) tt (start fs) st1 r1 eq_refl Hfun).
  destruct r1 as [[]|err|]; [| discriminate ..].
  destruct (range (Containers s) _ tt st1) as [st2 r2] eqn:Hcon.
  pose proof (range_invariant (fun _ st => opened st = ∅) (fun _ => True)
                (Containers s) (fun c _ => Create_container env cr s t c)) as Hinv'.
  specialize (Hinv' (fun c b st st' r Hopen Hx =>
    match r as r0 return Create_container env cr s t c st = (st', r0) ->
                         match r0 with Next _ => opened st' = ∅ | _ => True end
    with
    | Next tt => fun Hb => eq_trans (f_equal opened (eq_sym (f_equal fst Hb))) Hopen
    | _ => fun _ => I
    end Hx) tt st1 st2 r2 Hinv Hcon).
  destruct r2 as [[]|err|]; [| discriminate ..].
  intros [= <-]. exact Hinv'.
Qed.

(** [Create] leaves no descriptor behind where an open file can be
    removed, and everywhere when it returns nil: every descriptor was
    closed before the next one was created. *)
Lemma Create_removes_closed_descriptors env s t fs :
  RemovesOpenFiles env = true \/ snd (Create env s t fs) = Returned None ->
  files (fst (Create env s t fs))
  = fs ∖ list_to_set (created (fst (Create env s t fs))).
Proof.
  intros Hwhen. unfold Create in *.
  destruct (call_runs_deferred env fs _ (Create_body_tracked fs env s t))
    as [Htr ->].
  apply run_deferred_tracked; [exact Htr|].
  intros fh _ Hopen. destruct Hwhen as [Hunix|Hnil]; [exact Hunix|].
  rewrite call_ends in Hnil. simpl in Hnil.
  destruct (Create_body env s t (start fs)) as [st [[]|err|]] eqn:Hbody;
    try discriminate.
  simpl in Hopen. rewrite (Create_body_closes env s t fs st Hbody) in Hopen.
  set_solver.
Qed.

(** [CreateBaseDev] leaves no descriptor behind, however it ends and
    wherever it runs: its deferred calls close the file before they
    remove it. *)
Lemma CreateBaseDev_removes_its_descriptors env s fs :
  files (fst (CreateBaseDev env s fs))
  = fs ∖ list_to_set (created (fst (CreateBaseDev env s fs))).
Proof.
  unfold CreateBaseDev.
  destruct (call_runs_deferred env fs _ (CreateBaseDev_body_tracked fs env s))
    as [Htr ->].
  apply run_deferred_tracked; [exact Htr|].
  assert (Hkeeps : keeps closes_first (CreateBaseDev_body env s)).
  { unfold CreateBaseDev_body.
    apply keeps_bind; [apply keeps_attempt | intros ce].
    apply keeps_bind; [| intros _; apply keeps_ret].
    apply keeps_range. intros f m. unfold CreateBaseDev_function.
    apply keeps_bind; [apply keeps_attempt | intros rt].
    destruct (m !! lang (Handler f)); [apply keeps_ret|].
    apply keeps_bind.
    { intros st st' r Hc. unfold dynamicDockerfile.
      destruct (CreateTemp env _ _ _) as [[fh|err]|]; intros [= <- <-]; exact Hc. }
    intros fh. apply keeps_bind.
    { intros st st' r Hc. unfold defer. intros [= <- <-] fh' Hin. simpl in Hin.
      apply elem_of_cons in Hin as [Heq|Hin]; [discriminate | now apply (Hc fh')]. }
    intros _. apply keeps_bind; [apply keeps_check | intros _].
    apply keeps_bind; [| intros _; apply keeps_ret].
    intros st st' r Hc. unfold build_image, check. intros [= <- <-]. exact Hc. }
  intros fh Hin _. exfalso.
  destruct (CreateBaseDev_body env s (start fs)) as [st r] eqn:Hbody.
  refine (Hkeeps (start fs) st r _ Hbody fh Hin).
  intros fh' Hin'. simpl in Hin'. now apply not_elem_of_nil in Hin'.
Qed.

(** *** Fail-fast *)

Lemma build_image_log cr u dockerfile path tag args st st' r :
  build_image cr u dockerfile path tag args st = (st', r) ->
  built_tags st' = built_tags st ++ (match r with Next _ => [tag] | _ => [] end)
  /\ length (builds st') = S (length (builds st))
  /\ built_handlers st'
     = built_handlers st
       ++ (match u with OfFunction f => [Handler f] | OfContainer _ => [] end).
Proof.
  unfold build_image, check. intros [= <- <-].
  unfold built_tags, built_handlers. simpl.
  rewrite filter_app, map_app, omap_app, length_app. simpl.
  split; [|split; [lia | now destruct u]].
  f_equal. destruct (Build cr dockerfile path tag args) as [[err|]|]; reflexivity.
Qed.

Lemma Create_function_builds_its_image env cr s t :
  builds_its_image (fun f => ImageTagName env f s (Provider t))
    (fun f _ => Create_function env cr s t f).
Proof.
  intros f st st' r. unfold Create_function, bind, dynamicDockerfile, defer.
  destruct (CreateTemp env (files st) (Dir s) _) as [[fh|err]|].
  2,3: intros [= <- <-]; rewrite app_nil_r; split; [reflexivity | lia].
  unfold attempt. destruct (NewRunTimeFromHandler env (Handler f)) as [[rt|err]|].
  2,3: intros [= <- <-]; rewrite app_nil_r; split; [reflexivity | simpl; lia].
  unfold check at 1. destruct (FunctionDockerfile rt _ _ _ _) as [[err|]|].
  1,3: intros [= <- <-]; rewrite app_nil_r; split; [reflexivity | simpl; lia].
  unfold Close. intros Hb. destruct (build_image_log _ _ _ _ _ _ _ _ _ Hb) as (Ht & Hl & _).
  split; [exact Ht | rewrite Hl; simpl; lia].
Qed.

Lemma Create_container_builds_its_image env cr s t :
  builds_its_image (fun c => CImageTagName env c s (Provider t))
    (fun c _ => Create_container env cr s t c).
Proof.
  intros c st st' r. unfold Create_container. intros Hb.
  destruct (build_image_log _ _ _ _ _ _ _ _ _ Hb) as (Ht & Hl & _).
  split; [exact Ht | lia].
Qed.

(** A loop of such iterations builds the images of a prefix of its
    units: all of them when it goes to its end, those before the failing
    unit when it ends the pass. *)
Lemma range_builds_a_prefix {A} (tag : A -> string) body (l : list A) st st' r :
  builds_its_image tag body ->
  range l body tt st = (st', r) ->
  exists n,
    built_tags st' = built_tags st ++ take n (map tag l)
    /\ match r with
       | Next _ => n = length l /\ length (builds st') <= length (builds st) + n
       | _ => n < length l /\ length (builds st') <= length (builds st) + S n
       end.
Proof.
  intros Hbody. revert st. induction l as [|x l IH]; intros st; simpl.
  - intros [= <- <-]. exists 0. simpl. rewrite app_nil_r. repeat split; lia.
  - unfold bind. destruct (body x tt st) as [st1 [[]|err|]] eqn:Hx;
      destruct (Hbody _ _ _ _ Hx) as [Ht Hl]; simpl in Ht.
    + intros Hrest. destruct (IH _ Hrest) as (n & Hn & Hr).
      exists (S n). simpl. rewrite Hn, Ht, <- app_assoc. simpl.
      split; [reflexivity|]. destruct r; lia.
    + intros [= <- <-]. exists 0. simpl. rewrite Ht. split; [reflexivity | lia].
    + intros [= <- <-]. exists 0. simpl. rewrite Ht. split; [reflexivity | lia].
Qed.

(** The two loop bodies of [Create] run the calls of their unit. *)
Lemma build_image_units cr u dockerfile path tag args st st' r :
  build_image cr u dockerfile path tag args st = (st', r) ->
  map bc_unit (builds st') = map bc_unit (builds st) ++ [u].
Proof.
  unfold build_image, check. intros [= <- _]. simpl. now rewrite map_app.
Qed.

Lemma Create_function_runs_its_unit env cr s t :
  runs_its_unit env cr s t OfFunction (fun f _ => Create_function env cr s t f).
Proof.
  intros f st st' r.
  unfold Create_function, bind, dynamicDockerfile, defer, attempt.
  destruct (CreateTemp env (files st) (Dir s) _) as [[fh|err]|] eqn:Htemp.
  2,3: intros [= <- <-]; split; [|split; [reflexivity | now left]];
       left; exists (files st); now rewrite Htemp.
  destruct (NewRunTimeFromHandler env (Handler f)) as [[rt|err]|] eqn:Hrt.
  2,3: intros [= <- <-]; split; [|split; [reflexivity | now left]];
       right; left; now rewrite Hrt.
  unfold check at 1.
  destruct (FunctionDockerfile rt _ _ _ _) as [[err|]|] eqn:Hgen.
  1,3: intros [= <- <-]; split; [|split; [reflexivity | now left]];
       right; right; exists rt, fh; split; [exact Hrt | left; exact Hgen].
  unfold Close. intros Hb.
  destruct (build_image_log _ _ _ _ _ _ _ _ _ Hb) as (Ht & _ & _).
  pose proof (build_image_units _ _ _ _ _ _ _ _ _ Hb) as Hu.
  unfold build_image, check in Hb. injection Hb as _ Hr.
  destruct (Build cr _ _ _ _) as [[err|]|] eqn:Hbuild; subst r;
    cbn [ending_of] in *; rewrite ?app_nil_r in Ht.
  - split; [|split; [exact Ht | right; exact Hu]].
    right; right. exists rt, fh. split; [exact Hrt | right]. now split.
  - split; [|split; [exact Ht | exact Hu]]. exists rt, fh. now split.
  - split; [|split; [exact Ht | right; exact Hu]].
    right; right. exists rt, fh. split; [exact Hrt | right]. now split.
Qed.

Lemma Create_container_runs_its_unit env cr s t :
  runs_its_unit env cr s t OfContainer (fun c _ => Create_container env cr s t c).
Proof.
  intros c st st' r. unfold Create_container. intros Hb.
  destruct (build_image_log _ _ _ _ _ _ _ _ _ Hb) as (Ht & _ & _).
  pose proof (build_image_units _ _ _ _ _ _ _ _ _ Hb) as Hu.
  unfold build_image, check in Hb. injection Hb as _ Hr.
  destruct (Build cr _ _ _ _) as [[err|]|] eqn:Hbuild; subst r;
    cbn [ending_of unit_built unit_failed] in *; rewrite ?app_nil_r in Ht.
  - split; [exact Hbuild | split; [exact Ht | right; exact Hu]].
  - split; [exact Hbuild | split; [exact Ht | exact Hu]].
  - split; [exact Hbuild | split; [exact Ht | right; exact Hu]].
Qed.

(** A loop of such iterations runs to the first unit that fails: the
    units before it are built, one call of the engine each, and the loop
    ends the pass the way that unit's failing call ended, after no call
    of the engine for it or one; when no unit fails the loop goes on
    after the last. *)
Lemma range_to_first_failure {A} env cr s t (u : A -> Unit_)
    (body : A -> unit -> M unit) (l : list A) st st' r :
  runs_its_unit env cr s t u body ->
  range l body tt st = (st', r) ->
  exists n k,
    built_tags st' = built_tags st ++ take n (map (tag_of env s t) (map u l))
    /\ Forall (unit_built env cr s t) (take n (map u l))
    /\ map bc_unit (builds st') = map bc_unit (builds st) ++ take k (map u l)
    /\ match l !! n with
       | Some x =>
           unit_failed env cr s t (u x) (ending_of r)
           /\ ending_of r <> Returned None
           /\ (k = n \/ k = S n)
       | None => r = Next tt /\ n = length l /\ k = n
       end.
Proof.
  intros Hbody. revert st. induction l as [|x l IH]; intros st; simpl.
  - intros [= <- <-]. exists 0, 0. simpl. rewrite !app_nil_r.
    split; [reflexivity | split; [constructor|]]. now repeat split.
  - unfold bind. destruct (body x tt st) as [st1 [[]|err|]] eqn:Hx;
      pose proof (Hbody _ _ _ _ Hx) as H1; simpl in H1.
    + destruct H1 as (Hbuilt & Ht & Hu). intros Hrest.
      destruct (IH _ Hrest) as (n & k & Hn & Hall & Hk & Hr).
      exists (S n), (S k). simpl. rewrite Hn, Ht, Hk, Hu, <- !app_assoc. simpl.
      split; [reflexivity | split; [now constructor | split; [reflexivity|]]].
      destruct (l !! n) as [y|].
      * destruct Hr as (Hf & Hne & Hkn).
        split; [exact Hf | split; [exact Hne | lia]].
      * destruct Hr as (-> & -> & ->). now repeat split.
    + destruct H1 as (Hf & Ht & Hu). intros [= <- <-].
      destruct Hu as [Hu|Hu]; [exists 0, 0 | exists 0, 1]; simpl;
        rewrite Ht, ?Hu, ?app_nil_r;
        (split; [reflexivity | split; [constructor | split; [reflexivity|]]]);
        (split; [exact Hf | split; [discriminate | lia]]).
    + destruct H1 as (Hf & Ht & Hu). intros [= <- <-].
      destruct Hu as [Hu|Hu]; [exists 0, 0 | exists 0, 1]; simpl;
        rewrite Ht, ?Hu, ?app_nil_r;
        (split; [reflexivity | split; [constructor | split; [reflexivity|]]]);
        (split; [exact Hf | split; [discriminate | lia]]).
Qed.

Lemma unit_tags_units env s t : unit_tags env s t = map (tag_of env s t) (units s).
Proof.
  unfold unit_tags, units. rewrite map_app, !map_map. reflexivity.
Qed.

(** C5, as the code has it: [Create] ends at the first failure, with
    that failure.  When no container engine is found, [Create] ends the
    way the search did (its error, or its panic) and nothing is created
    or built.  Otherwise there is a number [n] of units (the functions,
    then the containers, in order) such that the images built are exactly
    those of the first [n] units, each after all of its calls returned
    nil, and the engine was called for the first [k] units, once each
    and in order.  Either these are all the units, and [Create] returns
    nil; or the next unit is the one that failed: [Create] ends the way
    the failing call did (the creation of the descriptor, the runtime
    lookup, the generation of the descriptor or the build: with that
    call's error, or with its panic), it does not return nil, the engine
    was called for no unit after the failing one, and no later unit is
    built.  In particular a function whose runtime lookup fails keeps
    [Create] from returning nil. *)
Theorem Create_ends_at_first_failure env s t fs :
  match Discover env with
  | Returned (inl cr) =>
      (exists n k,
         built_tags (fst (Create env s t fs)) = take n (unit_tags env s t)
         /\ Forall (unit_built env cr s t) (take n (units s))
         /\ map bc_unit (builds (fst (Create env s t fs))) = take k (units s)
         /\ match units s !! n with
            | Some u =>
                unit_failed env cr s t u (snd (Create env s t fs))
                /\ snd (Create env s t fs) <> Returned None
                /\ (k = n \/ k = S n)
            | None =>
                snd (Create env s t fs) = Returned None
                /\ n = length (units s) /\ k = n
            end)
      /\ (forall f, f ∈ Functions s ->
            (forall rt, NewRunTimeFromHandler env (Handler f) <> Returned (inl rt)) ->
            snd (Create env s t fs) <> Returned None)
  | failure =>
      snd (Create env s t fs) = error_of failure
      /\ builds (fst (Create env s t fs)) = []
      /\ created (fst (Create env s t fs)) = []
  end.
Proof.
  assert (Hmain :
    match Discover env with
    | Returned (inl cr) =>
        exists n k,
          built_tags (fst (Create env s t fs)) = take n (unit_tags env s t)
          /\ Forall (unit_built env cr s t) (take n (units s))
          /\ map bc_unit (builds (fst (Create env s t fs))) = take k (units s)
          /\ match units s !! n with
             | Some u =>
                 unit_failed env cr s t u (snd (Create env s t fs))
                 /\ snd (Create env s t fs) <> Returned None
                 /\ (k = n \/ k = S n)
             | None =>
                 snd (Create env s t fs) = Returned None
                 /\ n = length (units s) /\ k = n
             end
    | failure =>
        snd (Create env s t fs) = error_of failure
        /\ builds (fst (Create env s t fs)) = []
        /\ created (fst (Create env s t fs)) = []
    end).
  { destruct (Discover env) as [[cr|err]|] eqn:Hengine.
    2,3: unfold Create, call, Create_body, bind, attempt; rewrite Hengine;
         simpl; split; [reflexivity | split; reflexivity].
    unfold Create. rewrite call_ends. cbn [fst snd].
    rewrite run_deferred_built_tags, (proj2 (run_deferred_logs env _)),
      unit_tags_units.
    unfold Create_body, bind, attempt, units. rewrite Hengine.
    destruct (range (Functions s) _ tt (start fs)) as [st r] eqn:Hfun.
    destruct (range_to_first_failure env cr s t _ _ _ _ _ _
                (Create_function_runs_its_unit env cr s t) Hfun)
      as (n & k & Hn & Hall & Hk & Hr).
    change (built_tags (start fs)) with (@nil string) in Hn.
    change (map bc_unit (builds (start fs))) with (@nil Unit_) in Hk.
    simpl in Hn, Hk.
    destruct (Functions s !! n) as [f|] eqn:Hf.
    - (* a function fails *)
      destruct Hr as (Hfail & Hne & Hkn).
      assert (Hlt : n < length (Functions s)) by (eapply lookup_lt_Some; eauto).
      exists n, k. rewrite map_app, !take_app_le by (rewrite ?length_map; lia).
      rewrite lookup_app_l by (rewrite length_map; lia).
      rewrite list_lookup_fmap, Hf. simpl.
      destruct r as [[]|err|]; [now destruct Hne | ..]; simpl;
        (split; [exact Hn | split; [exact Hall | split; [exact Hk|]]]);
        (split; [exact Hfail | split; [discriminate | exact Hkn]]).
    - destruct Hr as (-> & -> & ->).
      rewrite firstn_all2 in Hn by (rewrite !length_map; lia).
      rewrite firstn_all2 in Hall by (rewrite !length_map; lia).
      rewrite firstn_all2 in Hk by (rewrite !length_map; lia).
      cbn [fst snd].
      destruct (range (Containers s) _ tt st) as [st' r'] eqn:Hcon.
      cbn [fst snd].
      destruct (range_to_first_failure env cr s t _ _ _ _ _ _
                  (Create_container_runs_its_unit env cr s t) Hcon)
        as (m & k & Hm & Hall' & Hk' & Hr').
      exists (length (Functions s) + m), (length (Functions s) + k).
      rewrite map_app, !take_app_ge by (rewrite ?length_map; lia).
      rewrite !length_map.
      replace (length (Functions s) + m - length (Functions s)) with m by lia.
      replace (length (Functions s) + k - length (Functions s)) with k by lia.
      rewrite lookup_app_r by (rewrite length_map; lia).
      rewrite length_map.
      replace (length (Functions s) + m - length (Functions s)) with m by lia.
      rewrite list_lookup_fmap. rewrite Hm, Hn, Hk', Hk.
      split; [reflexivity | split; [now apply Forall_app | split; [reflexivity|]]].
      destruct (Containers s !! m) as [c|] eqn:Hc; simpl.
      + destruct Hr' as (Hfail & Hne & Hkm).
        destruct r' as [[]|err|]; [now destruct Hne | ..]; simpl;
          (split; [exact Hfail | split; [discriminate | lia]]).
      + destruct Hr' as (-> & -> & ->). simpl.
        rewrite length_app, !length_map. now repeat split. }
  destruct (Discover env) as [[cr|err]|]; [| exact Hmain ..].
  split; [exact Hmain|].
  intros f Hin Hrt Hnil. destruct Hmain as (n & k & _ & Hall & _ & Hr).
  destruct (units s !! n) as [u|]; [now destruct Hr as (_ & Hne & _)|].
  destruct Hr as (_ & -> & _). rewrite firstn_all in Hall.
  rewrite Forall_forall in Hall.
  destruct (Hall (OfFunction f)) as (rt & _ & Hrt' & _).
  - unfold units. apply elem_of_app. left. now apply list_elem_of_fmap_2.
  - exact (Hrt rt Hrt').
Qed.

(** *** One dev image per language *)

Lemma CreateBaseDev_function_languages env ce s f m st st' r :
  languages_recorded m st ->
  CreateBaseDev_function env ce s f m st = (st', r) ->
  match r with
  | Next m' => languages_recorded m' st'
  | _ => NoDup (map lang (built_handlers st'))
  end.
Proof.
  intros [Hnd Hrec].
  unfold CreateBaseDev_function, bind, attempt.
  destruct (NewRunTimeFromHandler env (Handler f)) as [[rt|err]|].
  2,3: intros [= <- <-]; exact Hnd.
  destruct (m !! lang (Handler f)) eqn:Hm.
  { intros [= <- <-]. now split. }
  unfold dynamicDockerfile, defer.
  destruct (CreateTemp env (files st) (Dir s) _) as [[fh|err]|].
  2,3: intros [= <- <-]; exact Hnd.
  unfold check at 1. destruct (FunctionDockerfileForCodeAsConfig rt fh) as [[err|]|].
  1,3: intros [= <- <-]; exact Hnd.
  match goal with
  | |- context [build_image ?c ?u ?d ?p ?tg ?a ?st0] =>
      destruct (build_image c u d p tg a st0) as [st1 r1] eqn:Hb;
      destruct (build_image_log _ _ _ _ _ _ _ _ _ Hb) as (_ & _ & Hh)
  end.
  change (built_handlers _) with (built_handlers st) in Hh at 2.
  assert (Hfresh : NoDup (map lang (built_handlers st1))).
  { rewrite Hh, map_app. simpl. apply NoDup_app. repeat split.
    - exact Hnd.
    - intros l Hl Hl'. apply list_elem_of_singleton in Hl'. subst l.
      destruct (Hrec _ Hl) as [img Himg]. congruence.
    - apply NoDup_singleton. }
  destruct r1 as [[]|err|]; intros [= <- <-]; try exact Hfresh.
  split; [exact Hfresh|].
  intros l Hl. rewrite Hh, map_app in Hl. simpl in Hl.
  destruct (decide (lang (Handler f) = l)) as [->|Hne].
  - rewrite lookup_insert_eq. eauto.
  - rewrite lookup_insert_ne by done.
    apply elem_of_app in Hl as [Hl|Hl]; [now apply Hrec|].
    apply list_elem_of_singleton in Hl. congruence.
Qed.

Lemma CreateBaseDev_function_calls env ce s f m :
  keeps (fun st => length (built_handlers st) = length (builds st))
    (CreateBaseDev_function env ce s f m).
Proof.
  unfold CreateBaseDev_function.
  apply keeps_bind; [apply keeps_attempt | intros rt].
  destruct (m !! lang (Handler f)); [apply keeps_ret|].
  apply keeps_bind; [| intros fh].
  { intros st st' r Hlen. unfold dynamicDockerfile.
    destruct (CreateTemp env (files st) (Dir s) _) as [[fh|err]|];
      intros [= <- <-]; exact Hlen. }
  apply keeps_bind; [intros st st' r Hlen [= <- <-]; exact Hlen | intros _].
  apply keeps_bind; [apply keeps_check | intros _].
  apply keeps_bind; [| intros _; apply keeps_ret].
  intros st st' r Hlen Hb.
  destruct (build_image_log _ _ _ _ _ _ _ _ _ Hb) as (_ & Hl & Hh).
  rewrite Hh, Hl, length_app. simpl. lia.
Qed.

(** C9: the handlers for which [CreateBaseDev] calls the engine have
    pairwise distinct languages (extension without the dot), and it calls
    the engine for function handlers only: at most one dev image is built
    per language, and a handler whose language has been built is
    skipped. *)
Theorem CreateBaseDev_builds_once_per_language env s fs :
  NoDup (map lang (built_handlers (fst (CreateBaseDev env s fs))))
  /\ length (built_handlers (fst (CreateBaseDev env s fs)))
     = length (builds (fst (CreateBaseDev env s fs))).
Proof.
  unfold CreateBaseDev. rewrite call_ends. cbn [fst].
  rewrite run_deferred_built_handlers, (proj2 (run_deferred_logs env _)).
  split.
  - unfold CreateBaseDev_body, bind, attempt.
    destruct (Discover env) as [[ce|err]|]; simpl; try constructor.
    destruct (range (Functions s) _ ∅ (start fs)) as [st r] eqn:Hrange.
    pose proof (range_invariant languages_recorded
                  (fun st => NoDup (map lang (built_handlers st)))
                  (Functions s) (CreateBaseDev_function env ce s)
                  (CreateBaseDev_function_languages env ce s)
                  ∅ (start fs) st r) as Hinv.
    assert (Hst : NoDup (map lang (built_handlers st))).
    { assert (H0 : languages_recorded ∅ (start fs)).
      { split; simpl; [constructor | intros l Hl; inversion Hl]. }
      specialize (Hinv H0 Hrange). destruct r as [m|err|]; try exact Hinv.
      exact (proj1 Hinv). }
    destruct r as [m|err|]; exact Hst.
  - assert (Hk : keeps (fun st => length (built_handlers st) = length (builds st))
                   (CreateBaseDev_body env s)).
    { unfold CreateBaseDev_body.
      apply keeps_bind; [apply keeps_attempt | intros ce].
      apply keeps_bind; [| intros _; apply keeps_ret].
      apply keeps_range. intros f m. apply CreateBaseDev_function_calls. }
    destruct (CreateBaseDev_body env s (start fs)) as [st r] eqn:Hbody.
    exact (Hk (start fs) st r eq_refl Hbody).
Qed.

End BuildProperties.

(** ** The passes run on the shop project *)
Section BuildRuns.
Import build shop.

Lemma Create_with_orders_broken :
  builds (fst (Create (env ["shop-orders-aws"%string] []) project aws ∅))
  = [{| bc_unit := OfFunction orders;
        bc_dockerfile := "nitric.dynamic.Dockerfile.0";
        bc_path := "/src/shop"; bc_tag := "shop-orders-aws";
        bc_args := [("PROVIDER"%string, "aws"%string)]; bc_ok := false |}]
  /\ snd (Create (env ["shop-orders-aws"%string] []) project aws ∅)
     = Returned (Some (errors_New "build failed")).
Proof. split; vm_compute; reflexivity. Qed.

(** The claim of C5 fails when the image of the first function does not
    build: the engine is never called for the functions after it. *)
Lemma Create_abandons_later_functions :
  ~ (forall f, f ∈ Functions project ->
               attempted (fst (Create (env ["shop-orders-aws"%string] [])
                                 project aws ∅)) f).
Proof.
  intros Hall.
  destruct (Hall billing) as (b & Hin & Hunit).
  { apply list_elem_of_further, list_elem_of_here. }
  rewrite (proj1 Create_with_orders_broken) in Hin.
  apply list_elem_of_singleton in Hin. subst b. discriminate Hunit.
Qed.

(** With a broken image in the middle, the images before it are built,
    the pass returns the error, and the two descriptors created are
    gone. *)
Lemma Create_with_billing_broken :
  built_tags (fst (Create (env ["shop-billing-aws"%string] []) project aws ∅))
  = ["shop-orders-aws"%string]
  /\ snd (Create (env ["shop-billing-aws"%string] []) project aws ∅)
     = Returned (Some (errors_New "build failed"))
  /\ created (fst (Create (env ["shop-billing-aws"%string] []) project aws ∅))
     = ["/src/shop/nitric.dynamic.Dockerfile.0"%string;
        "/src/shop/nitric.dynamic.Dockerfile.1"%string]
  /\ files (fst (Create (env ["shop-billing-aws"%string] []) project aws ∅)) = ∅.
Proof. split; [|split; [|split]]; vm_compute; reflexivity. Qed.

(** The same when the engine panics instead. *)
Lemma Create_with_billing_fatal :
  snd (Create (env [] ["shop-billing-aws"%string]) project aws ∅) = Panicked
  /\ created (fst (Create (env [] ["shop-billing-aws"%string]) project aws ∅))
     = ["/src/shop/nitric.dynamic.Dockerfile.0"%string;
        "/src/shop/nitric.dynamic.Dockerfile.1"%string]
  /\ files (fst (Create (env [] ["shop-billing-aws"%string]) project aws ∅)) = ∅.
Proof. split; [|split]; vm_compute; reflexivity. Qed.

Lemma Create_on_shop :
  built_tags (fst (Create (env [] []) project aws ∅))
  = ["shop-orders-aws"%string; "shop-billing-aws"%string;
     "shop-audit-aws"%string; "shop-proxy-aws"%string]
  /\ snd (Create (env [] []) project aws ∅) = Returned None.
Proof. split; vm_compute; reflexivity. Qed.

Lemma lang_of_handlers :
  lang "functions/orders.ts" = "ts"%string
  /\ lang "functions/audit/main.go" = "go"%string
  /\ lang "functions/v1.2/run" = ""%string.
Proof. split; [|split]; reflexivity. Qed.

(** Two TypeScript handlers and a Go one: two dev images. *)
Lemma CreateBaseDev_on_shop :
  built_handlers (fst (CreateBaseDev (env [] []) project ∅))
  = ["functions/orders.ts"%string; "functions/audit/main.go"%string]
  /\ built_tags (fst (CreateBaseDev (env [] []) project ∅))
     = ["nitric-ts-dev"%string; "nitric-go-dev"%string]
  /\ snd (CreateBaseDev (env [] []) project ∅) = Returned None.
Proof. split; [|split]; vm_compute; reflexivity. Qed.

(** With a handler no runtime is known for, [Create] ends with the
    error of the lookup, after the image of the function before it. *)
Lemma Create_with_unknown_runtime :
  snd (Create (strict true) with_reports aws ∅)
  = Returned (Some (errors_New "runtime not supported"))
  /\ built_tags (fst (Create (strict true) with_reports aws ∅))
     = ["shop-orders-aws"%string]
  /\ length (builds (fst (Create (strict true) with_reports aws ∅))) = 1.
Proof. split; [|split]; vm_compute; reflexivity. Qed.

(** C8, which [Create] breaks where an open file cannot be removed
    (Windows): when the runtime lookup of the second function fails,
    [Create] returns at once, before [fh.Close()], and the deferred
    [os.Remove] of the descriptor it has just created fails on the open
    file, its error dropped: that descriptor is left in the project
    directory.  The descriptor of the first function, closed before its
    build, is removed.  Where an open file can be removed the same run
    leaves no descriptor, and neither does [CreateBaseDev] on either
    system, whose deferred call closes the file before it removes it. *)
Theorem Create_leaves_the_open_descriptor :
  snd (Create (strict false) with_reports aws ∅)
  = Returned (Some (errors_New "runtime not supported"))
  /\ created (fst (Create (strict false) with_reports aws ∅))
     = ["/src/shop/nitric.dynamic.Dockerfile.0"%string;
        "/src/shop/nitric.dynamic.Dockerfile.1"%string]
  /\ files (fst (Create (strict false) with_reports aws ∅))
     = {[ "/src/shop/nitric.dynamic.Dockerfile.1"%string ]}
  /\ files (fst (Create (strict true) with_reports aws ∅)) = ∅
  /\ created (fst (CreateBaseDev (strict false) with_reports ∅))
     = ["/src/shop/nitric.dynamic.Dockerfile.0"%string]
  /\ files (fst (CreateBaseDev (strict false) with_reports ∅)) = ∅.
Proof.
  split; [vm_compute; reflexivity|].
  split; [vm_compute; reflexivity|].
  split; [vm_compute; reflexivity|].
  split; [vm_compute; reflexivity|].
  split; vm_compute; reflexivity.
Qed.

End BuildRuns.

(** ** Table output *)
Section OutputProperties.
Import output.

(** *** The order of the keys *)

Lemma keyLess_lt k1 k2 :
  keyLess k1 k2 = true <-> String_as_OT.lt (String_of k1) (String_of k2).
Proof.
  unfold keyLess, String.ltb. rewrite <- String_as_OT.cmp_lt.
  unfold String_as_OT.cmp.
  destruct (String_of k1 ?= String_of k2)%string; split; intros; congruence.
Qed.

Lemma keyLess_trans k1 k2 k3 :
  keyLess k1 k2 = true -> keyLess k2 k3 = true -> keyLess k1 k3 = true.
Proof. rewrite !keyLess_lt. apply String_as_OT.lt_trans. Qed.

Lemma keyLess_asym k1 k2 : keyLess k1 k2 = true -> keyLess k2 k1 = false.
Proof.
  unfold keyLess, String.ltb. rewrite (String.compare_antisym (String_of k2) (String_of k1)).
  destruct (String_of k1 ?= String_of k2)%string; simpl; intros; congruence.
Qed.

Lemma keyLess_total k1 k2 :
  String_of k1 <> String_of k2 -> keyLess k1 k2 = true \/ keyLess k2 k1 = true.
Proof.
  intros Hne. unfold keyLess, String.ltb.
  rewrite (String.compare_antisym (String_of k2) (String_of k1)).
  destruct (String_of k1 ?= String_of k2)%string eqn:Hcmp; simpl; auto.
  apply String.compare_eq_iff in Hcmp. contradiction.
Qed.

Lemma not_keyLess_key_le k1 k2 : keyLess k2 k1 = false -> key_le k1 k2.
Proof.
  unfold keyLess, key_le, String.ltb, String.leb.
  rewrite (String.compare_antisym (String_of k2) (String_of k1)).
  destruct (String_of k1 ?= String_of k2)%string; simpl; intros; congruence.
Qed.

(** *** [SliceStable] *)

Lemma insert_Permutation (x : Value) l : insert keyLess x l ≡ₚ x :: l.
Proof.
  induction l as [|y l IH]; simpl; [reflexivity|].
  destruct (keyLess y x); [|reflexivity].
  rewrite IH. apply perm_swap.
Qed.

Lemma SliceStable_Permutation (l : list Value) : SliceStable keyLess l ≡ₚ l.
Proof.
  induction l as [|x l IH]; simpl; [reflexivity|].
  rewrite insert_Permutation. now apply perm_skip.
Qed.

Lemma insert_HdRel (a x : Value) l :
  key_le a x -> HdRel key_le a l -> HdRel key_le a (insert keyLess x l).
Proof.
  intros Hax Hal. destruct l as [|y l]; simpl; [now constructor|].
  inversion Hal; subst. destruct (keyLess y x); now constructor.
Qed.

Lemma insert_Sorted (x : Value) l :
  Sorted key_le l -> Sorted key_le (insert keyLess x l).
Proof.
  induction 1 as [|y l Hs IH Hhd]; simpl.
  - repeat constructor.
  - destruct (keyLess y x) eqn:Hyx.
    + constructor; [exact IH|].
      apply insert_HdRel; [|exact Hhd].
      apply not_keyLess_key_le. now apply keyLess_asym.
    + constructor; [now constructor|].
      constructor. now apply not_keyLess_key_le.
Qed.

Lemma SliceStable_Sorted (l : list Value) : Sorted key_le (SliceStable keyLess l).
Proof.
  induction l as [|x l IH]; simpl; [constructor | now apply insert_Sorted].
Qed.

(** Keys whose strings differ are inserted in either order with the
    same result. *)
Lemma insert_insert (x y : Value) l :
  String_of x <> String_of y ->
  insert keyLess x (insert keyLess y l) = insert keyLess y (insert keyLess x l).
Proof.
  intros Hne. induction l as [|z l IH]; simpl.
  - destruct (keyLess_total x y Hne) as [Hxy|Hyx].
    + rewrite Hxy, (keyLess_asym _ _ Hxy). reflexivity.
    + rewrite Hyx, (keyLess_asym _ _ Hyx). reflexivity.
  - destruct (keyLess z y) eqn:Hzy, (keyLess z x) eqn:Hzx; simpl;
      rewrite ?Hzy, ?Hzx;
      destruct (keyLess x y) eqn:Hxy, (keyLess y x) eqn:Hyx; simpl;
      rewrite ?Hzy, ?Hzx, ?IH; try reflexivity; exfalso;
      first [ pose proof (keyLess_asym _ _ Hxy); congruence
            | destruct (keyLess_total x y Hne); congruence
            | pose proof (keyLess_trans _ _ _ Hzy Hyx); congruence
            | pose proof (keyLess_trans _ _ _ Hzx Hxy); congruence ].
Qed.

(** The sorted key list does not depend on the order the keys came in,
    when no two keys have the same string. *)
Lemma SliceStable_order_independent (l1 l2 : list Value) :
  l1 ≡ₚ l2 -> NoDup (map String_of l1) ->
  SliceStable keyLess l1 = SliceStable keyLess l2.
Proof.
  induction 1 as [|x l1 l2 Hp IH|x y l|l1 l2 l3 Hp1 IH1 Hp2 IH2]; intros Hnd.
  - reflexivity.
  - simpl in *. apply NoDup_cons in Hnd as [_ Hnd]. now rewrite IH.
  - simpl in *. apply NoDup_cons in Hnd as [Hy _].
    apply insert_insert. intros Heq. apply Hy. rewrite Heq. left.
  - rewrite IH1 by assumption. apply IH2.
    now rewrite <- (Permutation_map String_of Hp1).
Qed.

(** *** The rows *)

Lemma structRow_starts_with_key names k v : row_key (structRow names k v) = Some k.
Proof.
  unfold structRow.
  assert (Hhead : forall fields r,
    exists r',
      fold_left
        (fun row field =>
           if (length row <=? length names)%nat then row ++ [CValue field] else row)
        fields (CValue k :: r) = CValue k :: r').
  { induction fields as [|f fields IH]; intros r; simpl; [eauto|].
    match goal with |- context [if ?b then _ else _] => destruct b end;
      [apply (IH (r ++ [CValue f])) | apply IH]. }
  destruct (Hhead (Fields_of v) []) as [r' ->]. reflexivity.
Qed.

Lemma appendRow_supported names object rows k :
  unsupported (Kind_of (MapIndex object k)) = false ->
  exists r, appendRow names object rows k = rows ++ [r] /\ row_key r = Some k.
Proof.
  unfold appendRow. intros Hk.
  destruct (Kind_of (MapIndex object k)); try discriminate Hk;
    eexists; (split; [reflexivity|]);
    first [reflexivity | apply structRow_starts_with_key].
Qed.

Lemma appendRow_unsupported names object rows k :
  unsupported (Kind_of (MapIndex object k)) = true ->
  appendRow names object rows k = rows.
Proof.
  unfold appendRow. intros Hk.
  destruct (Kind_of (MapIndex object k)); try discriminate Hk; reflexivity.
Qed.

Lemma rows_of_supported names object keys acc :
  (forall k, k ∈ keys -> unsupported (Kind_of (MapIndex object k)) = false) ->
  map row_key (fold_left (appendRow names object) keys acc)
  = map row_key acc ++ map Some keys.
Proof.
  revert acc. induction keys as [|k keys IH]; intros acc Hall; simpl.
  - now rewrite app_nil_r.
  - destruct (appendRow_supported names object acc k) as (r & -> & Hr).
    { apply Hall. left. }
    rewrite IH by (intros k' Hk'; apply Hall; now right).
    rewrite map_app. simpl. rewrite Hr, <- app_assoc. reflexivity.
Qed.

Lemma rows_of_unsupported names object keys acc :
  (forall k, k ∈ keys -> unsupported (Kind_of (MapIndex object k)) = true) ->
  fold_left (appendRow names object) keys acc = acc.
Proof.
  revert acc. induction keys as [|k keys IH]; intros acc Hall; simpl; [reflexivity|].
  rewrite appendRow_unsupported by (apply Hall; left).
  apply IH. intros k' Hk'. apply Hall. now right.
Qed.

Lemma rows_same_lookup names (m m' : MapObject) keys acc :
  (forall k, MapIndex m' k = MapIndex m k) ->
  fold_left (appendRow names m') keys acc = fold_left (appendRow names m) keys acc.
Proof.
  intros Hidx. revert acc. induction keys as [|k keys IH]; intros acc; simpl;
    [reflexivity|].
  rewrite IH. unfold appendRow. now rewrite Hidx.
Qed.

(** C10, as the code has it: the keys are taken in ascending order of
    their strings ([Value.String]); a key whose value is a struct or of a
    simple kind gets one row, which starts with the key, and a key whose
    value is a slice, array, func, chan, interface or map gets none; and
    when no two keys have the same string, as in a map with string keys,
    the table does not depend on the order in which the map yields its
    keys. *)
Theorem printMap_rows_in_key_order (m : MapObject) :
  let keys := SliceStable keyLess (MapRange m) in
  keys ≡ₚ MapRange m
  /\ Sorted key_le keys
  /\ ((forall k, k ∈ MapRange m -> unsupported (Kind_of (MapIndex m k)) = false) ->
      map row_key (rows (printMap m)) = map Some keys)
  /\ ((forall k, k ∈ MapRange m -> unsupported (Kind_of (MapIndex m k)) = true) ->
      rows (printMap m) = [])
  /\ (forall m', NoDup (map String_of (MapRange m)) -> same_map m m' ->
                 printMap m' = printMap m).
Proof.
  intros keys. pose proof (SliceStable_Permutation (MapRange m)) as Hperm.
  split; [exact Hperm|]. split; [apply SliceStable_Sorted|].
  split; [|split].
  - intros Hall. unfold printMap. simpl.
    rewrite rows_of_supported; [reflexivity|].
    intros k Hk. apply Hall. now rewrite <- Hperm.
  - intros Hall. unfold printMap. simpl.
    apply rows_of_unsupported. intros k Hk. apply Hall. now rewrite <- Hperm.
  - intros m' Hnd (Helem & Hidx & Hp). unfold printMap.
    rewrite Helem.
    rewrite (SliceStable_order_independent (MapRange m') (MapRange m) Hp)
      by now rewrite (Permutation_map String_of Hp).
    now rewrite (rows_same_lookup _ m m' _ [] Hidx).
Qed.

End OutputProperties.

(** ** [printMap] run on the concrete maps *)
Section OutputRuns.
Import output tables.

(** The claim of C10 fails on a map of slices: two keys, no row. *)
Lemma printMap_no_row_for_slices :
  ~ (length (rows (printMap lists)) = length (MapRange lists)).
Proof. vm_compute. discriminate. Qed.

Lemma targets_same_map :
  same_map (targets [str "local"; str "test-app"])
           (targets [str "test-app"; str "local"]).
Proof.
  split; [reflexivity | split; [reflexivity |]]. apply perm_swap.
Qed.

Lemma targets_keys_distinct :
  NoDup (map String_of (MapRange (targets [str "local"; str "test-app"]))).
Proof.
  simpl. apply NoDup_cons. split.
  - intros Hin. apply list_elem_of_singleton in Hin. discriminate Hin.
  - apply NoDup_singleton.
Qed.

Lemma printMap_rows_in_key_order_run :
  map row_key (rows (printMap (targets [str "test-app"; str "local"])))
    = [Some (str "local"); Some (str "test-app")]
  /\ printMap (targets [str "test-app"; str "local"])
     = printMap (targets [str "local"; str "test-app"]).
Proof.
  split.
  - vm_compute. reflexivity.
  - destruct (printMap_rows_in_key_order (targets [str "local"; str "test-app"]))
      as (_ & _ & _ & _ & Hsame).
    exact (Hsame _ targets_keys_distinct targets_same_map).
Defined.

(** Keys that are not strings all have the string of their type, so the
    sort leaves them in the order the map yielded them. *)
Lemma printMap_int_keys_keep_iteration_order :
  same_map (numbered [int "1"; int "2"]) (numbered [int "2"; int "1"])
  /\ map row_key (rows (printMap (numbered [int "1"; int "2"])))
     = [Some (int "1"); Some (int "2")]
  /\ map row_key (rows (printMap (numbered [int "2"; int "1"])))
     = [Some (int "2"); Some (int "1")].
Proof.
  split; [|split; vm_compute; reflexivity].
  split; [reflexivity | split; [reflexivity |]]. apply perm_swap.
Qed.

End OutputRuns.

(** * Further properties *)

(** ** The capture server, on every stream and request *)
Section ServerAlways.
Import pb codeconfig.
Context {FD : Type} `{Accumulator FD}.

(** X1: [TriggerStream] takes what [Recv] yields first and nothing more,
    and sends nothing: whatever the stream holds and whatever the handler
    methods do, the stream afterwards is the stream before less its first
    event. *)
Theorem TriggerStream_takes_one_event (s : Server FD) (stream : Stream) :
  pending (snd (fst (TriggerStream s stream))) = drop 1 (pending stream)
  /\ sent (snd (fst (TriggerStream s stream))) = sent stream
  /\ status (snd (fst (TriggerStream s stream))) = status stream
  /\ name (fst (fst (TriggerStream s stream))) = name s.
Proof.
  unfold TriggerStream, Recv.
  destruct (pending stream) as [|[cm|e] rest] eqn:Hp; simpl.
  - rewrite Hp. repeat split.
  - destruct (GetInitRequest cm) as [ir|]; [|repeat split].
    destruct (Worker ir); repeat split.
  - repeat split.
Qed.

(** X2: when [Recv] fails, on a stream that ends before any message
    ([io.EOF]) or on a transport error, [TriggerStream] returns the
    Internal status that wraps that error and calls no method of the
    accumulator. *)
Theorem TriggerStream_wraps_the_read_error
    (s : Server FD) (stream stream' : Stream) (err : error) :
  Recv stream = (inr err, stream') ->
  TriggerStream s stream =
    (s, stream',
     Some (status_Errorf Internal "error reading message from stream: %v" err))
  /\ (pending stream = [] -> err = io_EOF /\ stream' = stream).
Proof.
  intros Hrecv. split.
  - unfold TriggerStream. rewrite Hrecv. reflexivity.
  - intros Hempty. unfold Recv in Hrecv. rewrite Hempty in Hrecv.
    injection Hrecv as <- <-. split; reflexivity.
Qed.

(** X3: [TriggerStream] returns nil only when the first thing on the
    stream is a message that carries an InitRequest; and the accumulator
    it leaves is then the one a handler method returned, or the one it
    started with. *)
Theorem TriggerStream_nil_only_after_init
    (s s' : Server FD) (stream stream' : Stream) :
  TriggerStream s stream = (s', stream', None) ->
  exists cm ir rest,
    pending stream = Msg cm :: rest
    /\ GetInitRequest cm = Some ir
    /\ match Worker ir with
       | InitRequest_Api w => AddApiHandler w (function s) = (function s', None)
       | InitRequest_Schedule w =>
           AddScheduleHandler w (function s) = (function s', None)
       | InitRequest_Subscription w =>
           AddSubscriptionHandler w (function s) = (function s', None)
       | Worker_nil => s' = s
       end.
Proof.
  unfold TriggerStream, Recv.
  destruct (pending stream) as [|[cm|e] rest] eqn:Hp;
    [discriminate | | discriminate].
  destruct (GetInitRequest cm) as [ir|] eqn:Hir; [|discriminate].
  intros Hret. exists cm, ir, rest. split; [reflexivity | split; [exact Hir|]].
  destruct (Worker ir) as [w|w|w|].
  - destruct (AddApiHandler w (function s)) as [fd e] eqn:Hcall.
    simpl in Hret. injection Hret as <- _ ->. reflexivity.
  - destruct (AddScheduleHandler w (function s)) as [fd e] eqn:Hcall.
    simpl in Hret. injection Hret as <- _ ->. reflexivity.
  - destruct (AddSubscriptionHandler w (function s)) as [fd e] eqn:Hcall.
    simpl in Hret. injection Hret as <- _ ->. reflexivity.
  - injection Hret as <- _. reflexivity.
Qed.

(** X4: [Declare] has no error to return.  For every request it either
    returns the empty response with a nil error, or panics on a nil
    pointer; it panics exactly when the request has no resource, or
    declares an Api without an Api config, and then no method of the
    accumulator has been called. *)
Theorem Server_Declare_returns_nil_or_panics
    (s : Server FD) (req : ResourceDeclareRequest) :
  match snd (Server_Declare s req) with
  | Returned (resp, err) =>
      err = None
      /\ exists res,
           DResource req = Some res
           /\ (Type_ res = ResourceType_Api -> is_Some (GetApi req))
  | Panicked =>
      fst (Server_Declare s req) = s
      /\ (DResource req = None
          \/ exists res,
               DResource req = Some res
               /\ Type_ res = ResourceType_Api /\ GetApi req = None)
  end.
Proof.
  unfold Server_Declare. destruct (DResource req) as [res|]; simpl.
  2: { split; [reflexivity | now left]. }
  destruct (Type_ res) eqn:Hty; simpl;
    try (split; [reflexivity | exists res; split; [reflexivity | intros; congruence]]).
  destruct (GetApi req) as [a|] eqn:Hapi; simpl.
  - split; [reflexivity | exists res; split; [reflexivity | eauto]].
  - split; [reflexivity | right; exists res; repeat split; assumption].
Qed.

End ServerAlways.

Section ServerAlwaysRuns.
Import pb codeconfig graph sessions.

Lemma TriggerStream_wraps_the_read_error_run :
  Recv (open_stream []) = (inr io_EOF, open_stream [])
  /\ TriggerStream fresh (open_stream []) =
       (fresh, open_stream [],
        Some (status_Errorf Internal "error reading message from stream: %v"
                io_EOF)).
Proof.
  split; [reflexivity |].
  exact (proj1 (TriggerStream_wraps_the_read_error fresh (open_stream [])
                  (open_stream []) io_EOF eq_refl)).
Defined.

Lemma TriggerStream_nil_only_after_init_run :
  TriggerStream fresh (open_stream [Msg (init Worker_nil)])
    = (fresh, open_stream [], None)
  /\ exists cm ir rest,
       pending (open_stream [Msg (init Worker_nil)]) = Msg cm :: rest
       /\ GetInitRequest cm = Some ir
       /\ match Worker ir with
          | InitRequest_Api w =>
              AddApiHandler w (function fresh) = (function fresh, None)
          | InitRequest_Schedule w =>
              AddScheduleHandler w (function fresh) = (function fresh, None)
          | InitRequest_Subscription w =>
              AddSubscriptionHandler w (function fresh) = (function fresh, None)
          | Worker_nil => fresh = fresh
          end.
Proof.
  split; [reflexivity |].
  exact (TriggerStream_nil_only_after_init fresh fresh
           (open_stream [Msg (init Worker_nil)]) (open_stream []) eq_refl).
Defined.

End ServerAlwaysRuns.

(** ** Listing the images *)
Section ListProperties.
Import build images.
Context {Image : Type}.

Lemma list_units {A} (cr : @Lister Image) (stack : string) (nm : A -> string)
    (l : list A) (acc : list error * list Image) :
  fold_left (fun acc x => list_unit cr stack (nm x) acc) l acc
  = (fst acc ++ omap (refused cr stack) (map nm l),
     snd acc ++ flat_map (listed cr stack) (map nm l)).
Proof.
  revert acc. induction l as [|x l IH]; intros [errs imgs]; simpl.
  - now rewrite !app_nil_r.
  - rewrite IH. unfold list_unit, refused, listed.
    destruct (cr stack (nm x)) as [found|err]; simpl.
    + now rewrite app_assoc.
    + now rewrite <- app_assoc.
Qed.

(** X5: [List] fails only when no container engine is found.  With an
    engine it returns nil and the images of the units (functions, then
    containers, as the loops visit them) whose listing succeeded, in that
    order; the error of a listing that fails is printed and the unit left
    out, and the units after it are still listed. *)
Theorem List_leaves_out_failed_listings (cr : @Lister Image) (s : Project) :
  List (inl cr) s
  = (omap (refused cr (PName s)) (unit_names s),
     (Some (flat_map (listed cr (PName s)) (unit_names s)), None)).
Proof.
  unfold List, unit_names. rewrite !list_units. simpl.
  now rewrite omap_app, flat_map_app.
Qed.

End ListProperties.

(** ** The build passes, on their logs *)
Section PassProperties.
Import build passes.

Lemma keeps_range_of (P : State -> Prop) {A B} (l : list A)
    (body : A -> B -> M B) b :
  (forall x b, x ∈ l -> keeps P (body x b)) -> keeps P (range l body b).
Proof.
  revert b. induction l as [|x l IH]; intros b Hbody; simpl.
  - apply keeps_ret.
  - apply keeps_bind.
    + apply Hbody. left.
    + intros b'. apply IH. intros y b0 Hy. apply Hbody. now right.
Qed.

(** What a call keeps of a property of the logs, which the deferred
    removals do not touch. *)
Lemma call_keeps (P : list string -> list BuildCall -> Prop) env
    (body : M unit) fs :
  keeps (fun st => P (created st) (builds st)) body -> P [] [] ->
  P (created (fst (call env body fs))) (builds (fst (call env body fs))).
Proof.
  intros Hbody Hstart. rewrite call_ends. cbn [fst].
  rewrite (proj1 (run_deferred_logs env _)), (proj2 (run_deferred_logs env _)).
  destruct (body (start fs)) as [st r] eqn:Hst.
  exact (Hbody (start fs) st r Hstart Hst).
Qed.

(** *** The arguments of the engine calls *)

Lemma Create_call_more env s t ds ds' b :
  (forall fh, fh ∈ ds -> fh ∈ ds') -> Create_call env s t ds b ->
  Create_call env s t ds' b.
Proof.
  intros Hsub (Hp & Ha & Hu). split; [exact Hp | split; [exact Ha|]].
  destruct (bc_unit b); [|exact Hu].
  destruct Hu as (Hf & Ht & fh & Hfh & Hd). eauto 10.
Qed.

Lemma Create_function_calls env cr s t f :
  f ∈ Functions s ->
  keeps (fun st => Forall (Create_call env s t (created st)) (builds st))
    (Create_function env cr s t f).
Proof.
  intros Hf st st' r HI.
  unfold Create_function, bind, dynamicDockerfile, defer, attempt.
  destruct (CreateTemp env (files st) (Dir s) _) as [[fh|err]|];
    [| intros [= <- <-]; exact HI ..].
  assert (HI' : Forall (Create_call env s t (created st ++ [fh])) (builds st)).
  { eapply Forall_impl; [exact HI|]. intros b. apply Create_call_more.
    intros x Hx. apply elem_of_app. now left. }
  destruct (NewRunTimeFromHandler env (Handler f)) as [[rt|err]|];
    [| intros [= <- <-]; exact HI' ..].
  unfold check at 1.
  destruct (FunctionDockerfile rt _ _ _ _) as [[err|]|];
    [intros [= <- <-]; exact HI' | | intros [= <- <-]; exact HI'].
  unfold Close, build_image, check. intros [= <- <-]. simpl.
  apply Forall_app. split; [exact HI'|].
  apply Forall_singleton. split; [reflexivity | split; [reflexivity|]]. simpl.
  split; [exact Hf | split; [reflexivity|]].
  exists fh. split; [|reflexivity]. apply elem_of_app. right. left.
Qed.

Lemma Create_container_calls env cr s t c :
  c ∈ Containers s ->
  keeps (fun st => Forall (Create_call env s t (created st)) (builds st))
    (Create_container env cr s t c).
Proof.
  intros Hc st st' r HI. unfold Create_container, build_image, check.
  intros [= <- <-]. simpl. apply Forall_app. split; [exact HI|].
  apply Forall_singleton. split; [reflexivity | split; [reflexivity|]]. simpl.
  split; [exact Hc | split; reflexivity].
Qed.

Lemma CreateBaseDev_call_more s ds ds' b :
  (forall fh, fh ∈ ds -> fh ∈ ds') -> CreateBaseDev_call s ds b ->
  CreateBaseDev_call s ds' b.
Proof.
  intros Hsub (Hp & Ha & f & fh & Hu & Hf & Hfh & Hd).
  split; [exact Hp | split; [exact Ha|]]. exists f, fh. eauto.
Qed.

Lemma CreateBaseDev_function_its_calls env ce s f m :
  f ∈ Functions s ->
  keeps (fun st => Forall (CreateBaseDev_call s (created st)) (builds st))
    (CreateBaseDev_function env ce s f m).
Proof.
  intros Hf st st' r HI.
  unfold CreateBaseDev_function, bind, attempt.
  destruct (NewRunTimeFromHandler env (Handler f)) as [[rt|err]|];
    [| intros [= <- <-]; exact HI ..].
  destruct (m !! lang (Handler f)); [intros [= <- <-]; exact HI|].
  unfold dynamicDockerfile, defer.
  destruct (CreateTemp env (files st) (Dir s) _) as [[fh|err]|];
    [| intros [= <- <-]; exact HI ..].
  assert (HI' : Forall (CreateBaseDev_call s (created st ++ [fh])) (builds st)).
  { eapply Forall_impl; [exact HI|]. intros b. apply CreateBaseDev_call_more.
    intros x Hx. apply elem_of_app. now left. }
  unfold check at 1.
  destruct (FunctionDockerfileForCodeAsConfig rt fh) as [[err|]|];
    [intros [= <- <-]; exact HI' | | intros [= <- <-]; exact HI'].
  unfold build_image, check, ret.
  assert (Hnew : Forall (CreateBaseDev_call s (created st ++ [fh]))
                   (builds st
                    ++ [{| bc_unit := OfFunction f;
                           bc_dockerfile := filepath.Base fh;
                           bc_path := Dir s; bc_tag := DevImageName rt;
                           bc_args := [];
                           bc_ok := is_nil (Build ce (filepath.Base fh) (Dir s)
                                              (DevImageName rt) []) |}])).
  { apply Forall_app. split; [exact HI'|]. apply Forall_singleton.
    split; [reflexivity | split; [reflexivity|]]. exists f, fh.
    split; [reflexivity | split; [exact Hf | split; [|reflexivity]]].
    apply elem_of_app. right. left. }
  destruct (Build ce _ _ _ _) as [[err|]|]; intros [= <- <-]; exact Hnew.
Qed.

(** X6: every call of the container engine by [Create] has the project
    directory as build context and the target's provider as the one build
    argument PROVIDER.  A function's image is built under its own tag from
    a descriptor this pass created, named by its base name; a container's
    under its own tag from its own Dockerfile in the project directory.
    Every call of [CreateBaseDev] has the project directory as context and
    no build argument, and is for a function of the project, from a
    descriptor this pass created. *)
Theorem engine_calls_of_the_passes env s t fs :
  Forall (Create_call env s t (created (fst (Create env s t fs))))
    (builds (fst (Create env s t fs)))
  /\ Forall (CreateBaseDev_call s (created (fst (CreateBaseDev env s fs))))
       (builds (fst (CreateBaseDev env s fs))).
Proof.
  split.
  - unfold Create.
    apply (call_keeps (fun ds bs => Forall (Create_call env s t ds) bs));
      [| constructor].
    unfold Create_body.
    apply keeps_bind; [apply keeps_attempt | intros cr].
    apply keeps_bind; [| intros _].
    + apply keeps_range_of. intros f _ Hf. now apply Create_function_calls.
    + apply keeps_range_of. intros c _ Hc. now apply Create_container_calls.
  - unfold CreateBaseDev.
    apply (call_keeps (fun ds bs => Forall (CreateBaseDev_call s ds) bs));
      [| constructor].
    unfold CreateBaseDev_body.
    apply keeps_bind; [apply keeps_attempt | intros ce].
    apply keeps_bind; [| intros _; apply keeps_ret].
    apply keeps_range_of. intros f m Hf.
    now apply CreateBaseDev_function_its_calls.
Qed.

(** *** How many descriptors *)

Lemma Create_function_one_descriptor env cr s t f st st' r :
  Create_function env cr s t f st = (st', r) ->
  match r with
  | Next _ => length (created st') = S (length (created st))
  | _ => length (created st') <= S (length (created st))
  end.
Proof.
  unfold Create_function, bind, dynamicDockerfile, defer, attempt.
  destruct (CreateTemp env (files st) (Dir s) _) as [[fh|err]|];
    [| intros [= <- <-]; lia ..].
  destruct (NewRunTimeFromHandler env (Handler f)) as [[rt|err]|];
    [| intros [= <- <-]; simpl; rewrite length_app; simpl; lia ..].
  unfold check at 1.
  destruct (FunctionDockerfile rt _ _ _ _) as [[err|]|];
    [intros [= <- <-]; simpl; rewrite length_app; simpl; lia |
    | intros [= <- <-]; simpl; rewrite length_app; simpl; lia].
  unfold Close, build_image, check.
  destruct (Build cr _ _ _ _) as [[err|]|]; intros [= <- <-]; simpl;
    rewrite length_app; simpl; lia.
Qed.

Lemma range_one_descriptor_each env cr s t (l : list Function) st st' r :
  range l (fun f _ => Create_function env cr s t f) tt st = (st', r) ->
  match r with
  | Next _ => length (created st') = length (created st) + length l
  | _ => length (created st') <= length (created st) + length l
  end.
Proof.
  revert st. induction l as [|f l IH]; intros st; simpl.
  - intros [= <- <-]. lia.
  - unfold bind.
    destruct (Create_function env cr s t f st) as [st1 [[]|err|]] eqn:Hf;
      pose proof (Create_function_one_descriptor _ _ _ _ _ _ _ _ Hf) as H1;
      simpl in H1.
    + intros Hrest. specialize (IH _ Hrest). destruct r; lia.
    + intros [= <- <-]. lia.
    + intros [= <- <-]. lia.
Qed.

Lemma containers_create_no_descriptor env cr s t (l : list Container) n :
  keeps (fun st => length (created st) = n)
    (range l (fun c _ => Create_container env cr s t c) tt).
Proof.
  apply keeps_range. intros c _ st st' r Hn.
  unfold Create_container, build_image, check. intros [= <- <-]. exact Hn.
Qed.

(** X7: [Create] creates at most one descriptor per function of the
    project, none for a container, and exactly one per function when it
    returns nil. *)
Theorem Create_one_descriptor_per_function env s t fs :
  length (created (fst (Create env s t fs))) <= length (Functions s)
  /\ (snd (Create env s t fs) = Returned None ->
      length (created (fst (Create env s t fs))) = length (Functions s)).
Proof.
  unfold Create. rewrite call_ends. cbn [fst snd].
  rewrite (proj1 (run_deferred_logs env _)).
  unfold Create_body, bind, attempt.
  destruct (Discover env) as [[cr|err]|];
    [| simpl; split; [lia | discriminate] ..].
  destruct (range (Functions s) _ tt (start fs)) as [st r] eqn:Hfun.
  pose proof (range_one_descriptor_each _ _ _ _ _ _ _ _ Hfun) as Hn.
  change (length (created (start fs))) with 0 in Hn.
  destruct r as [[]|err|]; simpl in Hn;
    [| simpl; split; [lia | discriminate] ..].
  destruct (range (Containers s) _ tt st) as [st' r'] eqn:Hcon.
  pose proof (containers_create_no_descriptor env cr s t (Containers s)
                (length (created st)) st st' r' eq_refl Hcon) as Hn'.
  cbv beta in Hn'.
  destruct r' as [[]|err|]; simpl; (split; [lia | try discriminate]).
  intros _. lia.
Qed.

(** *** The handlers [CreateBaseDev] builds for *)

Lemma CreateBaseDev_function_goes_on env ce s f m st st' m' :
  CreateBaseDev_function env ce s f m st = (st', Next m') ->
  (is_Some (m !! lang (Handler f)) /\ m' = m /\ st' = st)
  \/ (m !! lang (Handler f) = None
      /\ (forall l, is_Some (m' !! l) <-> l = lang (Handler f) \/ is_Some (m !! l))
      /\ built_handlers st' = built_handlers st ++ [Handler f]
      /\ length (created st') = S (length (created st))
      /\ length (builds st') = S (length (builds st))).
Proof.
  unfold CreateBaseDev_function, bind, attempt.
  destruct (NewRunTimeFromHandler env (Handler f)) as [[rt|err]|];
    [| discriminate ..].
  destruct (m !! lang (Handler f)) as [img|] eqn:Hm.
  { intros [= <- <-]. left. eauto. }
  unfold dynamicDockerfile, defer.
  destruct (CreateTemp env (files st) (Dir s) _) as [[fh|err]|];
    [| discriminate ..].
  unfold check at 1.
  destruct (FunctionDockerfileForCodeAsConfig rt fh) as [[err|]|];
    [discriminate | | discriminate].
  unfold build_image, check, ret.
  destruct (Build ce _ _ _ _) as [[err|]|]; [discriminate | | discriminate].
  intros [= <- <-]. right. split; [reflexivity|]. split; [|split; [|split]].
  - intros l. destruct (decide (lang (Handler f) = l)) as [<-|Hne].
    + rewrite lookup_insert_eq. split; [auto | eauto].
    + rewrite lookup_insert_ne by done. split; [auto | intros [?|?]; congruence || done].
  - unfold built_handlers. simpl. now rewrite omap_app.
  - simpl. rewrite length_app. simpl. lia.
  - simpl. rewrite length_app. simpl. lia.
Qed.

Lemma range_first_of_each_language env ce s (l : list Function) seen m st st' m' :
  languages_seen seen m ->
  range l (CreateBaseDev_function env ce s) m st = (st', Next m') ->
  built_handlers st'
  = built_handlers st ++ first_of_each_language seen (map Handler l)
  /\ length (created st') + length (builds st)
     = length (created st) + length (builds st').
Proof.
  revert seen m st. induction l as [|f l IH]; intros seen m st Hseen; simpl.
  - intros [= <- <-]. rewrite app_nil_r. split; [reflexivity | lia].
  - unfold bind.
    destruct (CreateBaseDev_function env ce s f m st) as [st1 [m1|err|]] eqn:Hf;
      [| discriminate ..].
    intros Hrest.
    destruct (CreateBaseDev_function_goes_on _ _ _ _ _ _ _ _ Hf)
      as [(Hin & -> & ->)|(Hout & Hm1 & Hh & Hc & Hb)].
    + destruct (decide (lang (Handler f) ∈ seen)) as [_|Hno];
        [| destruct Hno; now apply Hseen].
      now apply (IH seen m st).
    + destruct (decide (lang (Handler f) ∈ seen)) as [Hyes|_].
      { apply Hseen in Hyes. rewrite Hout in Hyes. now destruct Hyes. }
      destruct (IH (lang (Handler f) :: seen) m1 st1) as [Hh' Hn]; [|exact Hrest|].
      { intros l0. rewrite Hm1, elem_of_cons. now rewrite (Hseen l0). }
      rewrite Hh', Hh, <- app_assoc. simpl. split; [reflexivity | lia].
Qed.

(** X8: when [CreateBaseDev] returns nil, the handlers it built a dev
    image for are, in the order the loop visits the functions, the first
    handler of each language:
    every language among the project's handlers has its image, and each
    descriptor created was built from. *)
Theorem CreateBaseDev_builds_first_of_each_language env s fs :
  snd (CreateBaseDev env s fs) = Returned None ->
  built_handlers (fst (CreateBaseDev env s fs))
  = first_of_each_language [] (map Handler (Functions s))
  /\ length (created (fst (CreateBaseDev env s fs)))
     = length (builds (fst (CreateBaseDev env s fs))).
Proof.
  unfold CreateBaseDev. rewrite call_ends. cbn [fst snd].
  rewrite run_deferred_built_handlers, (proj1 (run_deferred_logs env _)),
    (proj2 (run_deferred_logs env _)).
  unfold CreateBaseDev_body, bind, attempt, ret.
  destruct (Discover env) as [[ce|err]|]; [| discriminate ..].
  destruct (range (Functions s) _ ∅ (start fs)) as [st [m|err|]] eqn:Hrange;
    [| discriminate ..].
  intros _. simpl.
  destruct (range_first_of_each_language env ce s (Functions s) [] ∅
              (start fs) st m) as [Hh Hn]; [|exact Hrange|].
  { intros l. rewrite lookup_empty. split; [intros [? [=]] | intros Hl; inversion Hl]. }
  split; [exact Hh | simpl in Hn; lia].
Qed.

End PassProperties.

Section PassRuns.
Import build passes shop.

Lemma CreateBaseDev_builds_first_of_each_language_run :
  snd (CreateBaseDev (env [] []) project ∅) = Returned None
  /\ built_handlers (fst (CreateBaseDev (env [] []) project ∅))
     = ["functions/orders.ts"%string; "functions/audit/main.go"%string]
  /\ length (created (fst (CreateBaseDev (env [] []) project ∅))) = 2.
Proof.
  assert (Hnil : snd (CreateBaseDev (env [] []) project ∅) = Returned None)
    by (vm_compute; reflexivity).
  split; [exact Hnil|].
  destruct (CreateBaseDev_builds_first_of_each_language (env [] []) project ∅ Hnil)
    as [Hh Hn].
  split.
  - rewrite Hh. vm_compute. reflexivity.
  - rewrite Hn. vm_compute. reflexivity.
Defined.

End PassRuns.

(** ** The language of a handler *)
Section LangProperties.
Import build.

Lemma string_of_list_ascii_app (l1 l2 : list ascii) :
  string_of_list_ascii (l1 ++ l2)
  = string_of_list_ascii l1 +:+ string_of_list_ascii l2.
Proof. induction l1 as [|c l1 IH]; simpl; [reflexivity | now rewrite IH]. Qed.

Lemma Ext_scan_found back suffix :
  filepath.Ext_scan back suffix = ""%string
  \/ exists mid rest,
       back = rev mid ++ "."%char :: rest
       /\ filepath.Ext_scan back suffix
          = string_of_list_ascii ("."%char :: mid ++ suffix)
       /\ Forall (fun c => c <> "."%char /\ c <> "/"%char) mid.
Proof.
  revert suffix. induction back as [|c back IH]; intros suffix; simpl.
  - now left.
  - unfold filepath.IsPathSeparator.
    destruct (Ascii.eqb_spec c "/") as [->|Hslash]; [now left|].
    destruct (Ascii.eqb_spec c ".") as [->|Hdot].
    + right. exists [], back. repeat split. constructor.
    + destruct (IH (c :: suffix)) as [Hnone|(mid & rest & -> & Hext & Hmid)];
        [now left|].
      right. exists (mid ++ [c]), rest. split; [|split].
      * rewrite rev_app_distr. reflexivity.
      * rewrite Hext, <- app_assoc. reflexivity.
      * apply Forall_app. split; [exact Hmid|]. apply Forall_singleton. now split.
Qed.

(** X9: the language key of a handler is what follows the last dot of
    its last path element: either the handler has no extension and the
    key is empty, or the handler is a stem, a dot and the key; the key
    holds neither a dot nor a path separator. *)
Theorem lang_is_the_extension (handler : string) :
  (filepath.Ext handler = ""%string /\ lang handler = ""%string)
  \/ (exists stem, handler = stem +:+ "." +:+ lang handler)
     /\ Forall (fun c => c <> "."%char /\ c <> "/"%char)
          (list_ascii_of_string (lang handler)).
Proof.
  unfold lang, filepath.Ext.
  destruct (Ext_scan_found (rev (list_ascii_of_string handler)) [])
    as [->|(mid & rest & Hback & -> & Hmid)]; [now left|].
  right. rewrite app_nil_r. simpl.
  rewrite list_ascii_of_string_of_list_ascii. split; [|exact Hmid].
  exists (string_of_list_ascii (rev rest)).
  rewrite <- (string_of_list_ascii_of_string handler) at 1.
  rewrite <- (rev_involutive (list_ascii_of_string handler)), Hback.
  rewrite rev_app_distr, rev_involutive. simpl.
  rewrite <- app_assoc, string_of_list_ascii_app. reflexivity.
Qed.

End LangProperties.

(** ** Names, rows and headers *)
Section TableProperties.
Import output tabular.

Lemma Split_comma_head (s : string) :
  exists h t rest,
    Split_comma s = h :: t
    /\ s = h +:+ rest
    /\ (rest = ""%string \/ exists r, rest = String "," r)
    /\ Forall (fun c => c <> ","%char) (list_ascii_of_string h).
Proof.
  induction s as [|c s (h & t & rest & Hs & Heq & Hrest & Hh)]; simpl.
  - exists ""%string, [], ""%string. repeat split; [now left | constructor].
  - destruct (Ascii.eqb_spec c ",") as [->|Hc].
    + exists ""%string, (Split_comma s), (String "," s).
      repeat split; [right; eauto | constructor].
    + rewrite Hs. exists (String c h), t, rest.
      split; [reflexivity | split; [now rewrite Heq at 1 | split; [exact Hrest|]]].
      simpl. constructor; assumption.
Qed.

(** X10: the name of a field is its yaml tag, or its json tag when the
    yaml tag is empty or missing, cut before the first comma: the tag is
    the name, followed by nothing or by a comma and the options, and the
    name holds no comma.  A field with neither tag has the empty name. *)
Theorem nameFromField_is_the_tag_before_the_comma (f : StructField) :
  exists rest,
    tag_value f = nameFromField f +:+ rest
    /\ (rest = ""%string \/ exists r, rest = String "," r)
    /\ Forall (fun c => c <> ","%char) (list_ascii_of_string (nameFromField f)).
Proof.
  assert (Hnone : tag_value f = ""%string ->
    exists rest,
      tag_value f = ""%string +:+ rest
      /\ (rest = ""%string \/ exists r, rest = String "," r)
      /\ Forall (fun c => c <> ","%char) (list_ascii_of_string "")).
  { intros ->. exists ""%string. repeat split; [now left | constructor]. }
  assert (Hsome : forall v, tag_value f = v ->
    exists rest,
      tag_value f
      = match Split_comma v with t0 :: _ => t0 | [] => ""%string end +:+ rest
      /\ (rest = ""%string \/ exists r, rest = String "," r)
      /\ Forall (fun c => c <> ","%char)
           (list_ascii_of_string
              match Split_comma v with t0 :: _ => t0 | [] => ""%string end)).
  { intros v Hv. destruct (Split_comma_head v)
      as (h & t & rest & Hs & Heq & Hrest & Hh).
    rewrite Hs, Hv. exists rest. split; [exact Heq | split; assumption]. }
  unfold nameFromField, tags. unfold tag_value in *.
  destruct (Tag f) as [|kv tag] eqn:Htag.
  { apply Hnone. reflexivity. }
  simpl find.
  destruct (nonempty (Tag_Get (kv :: tag) "yaml")) eqn:Hy.
  { apply Hsome. reflexivity. }
  destruct (nonempty (Tag_Get (kv :: tag) "json")) eqn:Hj.
  { apply Hsome. reflexivity. }
  apply Hnone. unfold nonempty in Hj. apply negb_false_iff in Hj.
  now apply String.eqb_eq in Hj.
Qed.

(** The names of a struct type are those of its named fields, in
    order. *)
Lemma namesFrom_struct (t : Type_) :
  TKind t = Struct -> namesFrom t = map CString (field_names t).
Proof.
  intros Hk. unfold namesFrom, field_names. rewrite Hk.
  assert (Hfold : forall fields acc,
    fold_left
      (fun names f =>
         let name := nameFromField f in
         if nonempty name then names ++ [CString name] else names)
      fields acc
    = acc ++ map CString
               (filter (fun n => nonempty n = true) (map nameFromField fields))).
  { induction fields as [|f fields IH]; intros acc; simpl.
    - now rewrite app_nil_r.
    - rewrite IH. destruct (nonempty (nameFromField f)) eqn:Hn.
      + rewrite filter_cons_True by done. simpl. now rewrite <- app_assoc.
      + rewrite filter_cons_False by (rewrite Hn; done). reflexivity. }
  apply (Hfold (TFields t) []).
Qed.

Lemma structRow_first_fields (names : Row) (k v : Value) :
  structRow names k v
  = CValue k :: map CValue (take (length names) (Fields_of v)).
Proof.
  unfold structRow.
  assert (Hfold : forall fields row,
    fold_left
      (fun row field =>
         if (length row <=? length names)%nat then row ++ [CValue field] else row)
      fields row
    = row ++ map CValue (take (S (length names) - length row) fields)).
  { induction fields as [|x fields IH]; intros row; simpl.
    - rewrite take_nil. simpl. now rewrite app_nil_r.
    - rewrite IH. destruct (Nat.leb_spec (length row) (length names)) as [Hle|Hgt].
      + rewrite length_app. simpl.
        replace (S (length names) - length row)
          with (S (length names - length row)) by lia.
        replace (S (length names) - (length row + 1))
          with (length names - length row) by lia.
        simpl. now rewrite <- app_assoc.
      + replace (S (length names) - length row) with 0 by lia. reflexivity. }
  rewrite Hfold. simpl. now rewrite Nat.sub_0_r.
Qed.

(** X11: in the table of a map of structs, the row of a key is the key
    followed by the first fields of its value, as many as the struct type
    has named fields: the cell under the i-th name is the i-th field,
    whether or not that is the field that carries the name.  No row is
    wider than the header, and a row is as wide as the header when the
    value has at least that many fields. *)
Theorem printMap_struct_rows_hold_the_first_fields (m : MapObject) :
  TKind (Elem m) = Struct ->
  (forall k, k ∈ MapRange m -> Kind_of (MapIndex m k) = Struct) ->
  let n := length (field_names (Elem m)) in
  header (printMap m) = [CString "key" :: map CString (field_names (Elem m))]
  /\ rows (printMap m)
     = map (fun k => CValue k :: map CValue (take n (Fields_of (MapIndex m k))))
         (SliceStable keyLess (MapRange m))
  /\ Forall (fun r => length r <= S n) (rows (printMap m)).
Proof.
  intros Hk Hall n. unfold printMap. simpl.
  rewrite (namesFrom_struct _ Hk).
  assert (Hrows : forall keys acc,
    (forall k, k ∈ keys -> Kind_of (MapIndex m k) = Struct) ->
    fold_left (appendRow (map CString (field_names (Elem m))) m) keys acc
    = acc ++ map (fun k => CValue k
                           :: map CValue (take n (Fields_of (MapIndex m k)))) keys).
  { induction keys as [|k keys IH]; intros acc Hkeys; simpl.
    - now rewrite app_nil_r.
    - rewrite IH by (intros k' Hk'; apply Hkeys; now right).
      unfold appendRow. rewrite (Hkeys k) by left.
      rewrite structRow_first_fields, length_map, <- app_assoc. reflexivity. }
  split; [reflexivity|].
  rewrite Hrows.
  2: { intros k Hk'. apply Hall. now rewrite <- (SliceStable_Permutation (MapRange m)). }
  split; [reflexivity|].
  apply Forall_forall. intros r Hr. apply list_elem_of_In, in_map_iff in Hr.
  destruct Hr as (k & <- & _). simpl. rewrite length_map, length_take. lia.
Qed.

Lemma listRow_first_fields (names : Row) (v : Value) :
  listRow names v = map shown (take (length names) (Fields_of v)).
Proof.
  unfold listRow.
  assert (Hfold : forall fields row,
    fold_left
      (fun row field =>
         if (length row <? length names)%nat
         then match Kind_of field with
              | Ptr => row ++ [CValue (Elem_of field)]
              | _ => row ++ [CValue field]
              end
         else row)
      fields row
    = row ++ map shown (take (length names - length row) fields)).
  { induction fields as [|x fields IH]; intros row; simpl.
    - rewrite take_nil. simpl. now rewrite app_nil_r.
    - rewrite IH. destruct (Nat.ltb_spec (length row) (length names)) as [Hlt|Hge].
      + replace (length names - length row)
          with (S (length names - S (length row))) by lia.
        simpl. unfold shown at 2.
        destruct (Kind_of x); rewrite length_app, <- app_assoc; simpl;
          now replace (length row + 1) with (S (length row)) by lia.
      + replace (length names - length row) with 0 by lia. reflexivity. }
  rewrite Hfold. simpl. now rewrite Nat.sub_0_r.
Qed.

Lemma appendItem_rows (names : Row) (items : list Value) (acc : list Row) :
  fold_left (appendItem names) items acc
  = acc ++ map (item_row names)
             (filter (fun v => unsupported (Kind_of v) = false) items).
Proof.
  revert acc. induction items as [|v items IH]; intros acc; simpl.
  - now rewrite app_nil_r.
  - rewrite IH. unfold appendItem, item_row.
    destruct (Kind_of v) eqn:Hkind;
      first [ rewrite filter_cons_False by (rewrite Hkind; done); reflexivity
            | rewrite filter_cons_True by (rewrite Hkind; done); simpl;
              rewrite ?Hkind, ?listRow_first_fields, <- app_assoc; reflexivity ].
Qed.

(** X12: [printList] keeps the order of the list: its rows are those of
    the elements of a supported kind, one each and in list order, the row
    of a struct being its first fields, as many as there are names, with
    a pointer field replaced by what it points to.  The header is left
    out when the element type gives no names, and when the elements have
    the kind of the element type no row is wider than the names. *)
Theorem printList_rows_in_list_order (object : ListObject) :
  let names := namesFrom (LElem object) in
  rows (printList object)
  = map (item_row names)
      (filter (fun v => unsupported (Kind_of v) = false) (Items object))
  /\ (header (printList object) = [] <-> names = [])
  /\ ((forall v, v ∈ Items object -> Kind_of v = TKind (LElem object)) ->
      Forall (fun r => length r <= length names) (rows (printList object))).
Proof.
  intros names. unfold printList. simpl. fold names.
  rewrite appendItem_rows. simpl.
  split; [reflexivity | split].
  - destruct names; split; intros; congruence.
  - intros Hkinds. apply Forall_forall. intros r Hr.
    apply list_elem_of_In, in_map_iff in Hr. destruct Hr as (v & <- & Hv).
    apply list_elem_of_In, list_elem_of_filter in Hv. destruct Hv as [Hsup Hv].
    specialize (Hkinds v Hv). unfold item_row.
    destruct (Kind_of v) eqn:Hkind;
      try (simpl; rewrite length_map, length_take; lia);
      try discriminate Hsup;
      unfold names, namesFrom; rewrite <- Hkinds; simpl; lia.
Qed.

(** X13: [printStruct] prints one row per named field of the struct, in
    field order, and leaves the unnamed fields out; each row pairs the
    upper-cased name of a field with the value of that same field. *)
Theorem printStruct_pairs_each_name_with_its_field
    (ToUpper : string -> string) (object : Value) :
  rows (printStruct ToUpper object)
  = map (fun fx => [CString (ToUpper (nameFromField (fst fx))); CValue (snd fx)])
      (filter (fun fx => nonempty (nameFromField (fst fx)) = true)
         (combine (TFields (Type_of object)) (Fields_of object)))
  /\ length (rows (printStruct ToUpper object)) <= length (Fields_of object)
  /\ header (printStruct ToUpper object) = [].
Proof.
  unfold printStruct. simpl.
  assert (Hfold : forall (l : list (StructField * Value)) acc,
    fold_left
      (fun rows fx =>
         let name := nameFromField (fst fx) in
         if nonempty name
         then rows ++ [[CString (ToUpper name); CValue (snd fx)]]
         else rows) l acc
    = acc ++ map (fun fx => [CString (ToUpper (nameFromField (fst fx)));
                             CValue (snd fx)])
               (filter (fun fx => nonempty (nameFromField (fst fx)) = true) l)).
  { induction l as [|fx l IH]; intros acc; simpl.
    - now rewrite app_nil_r.
    - rewrite IH. destruct (nonempty (nameFromField (fst fx))) eqn:Hn.
      + rewrite filter_cons_True by done. simpl. now rewrite <- app_assoc.
      + rewrite filter_cons_False by (rewrite Hn; done). reflexivity. }
  rewrite Hfold. simpl. split; [reflexivity | split; [|reflexivity]].
  rewrite length_map.
  etransitivity; [apply length_filter|].
  rewrite length_combine. lia.
Qed.

End TableProperties.

Section TableRuns.
Import output tabular tables.

Lemma targets_are_structs k :
  k ∈ MapRange (targets [str "test-app"; str "local"]) ->
  Kind_of (MapIndex (targets [str "test-app"; str "local"]) k) = Struct.
Proof. intros _. simpl. now destruct (String.eqb _ _). Qed.

Lemma printMap_struct_rows_hold_the_first_fields_run :
  TKind (Elem (targets [str "test-app"; str "local"])) = Struct
  /\ header (printMap (targets [str "test-app"; str "local"]))
     = [[CString "key"; CString "name"; CString "provider"; CString "region"]]
  /\ Forall (fun r => length r <= 4)
       (rows (printMap (targets [str "test-app"; str "local"]))).
Proof.
  split; [reflexivity|].
  destruct (printMap_struct_rows_hold_the_first_fields
              (targets [str "test-app"; str "local"]) eq_refl targets_are_structs)
    as (Hheader & _ & Hwidth).
  split; [exact Hheader | exact Hwidth].
Defined.

(** The name sits over the field before it when that one has no tag; as
    a struct the same value shows the name beside its own field. *)
Lemma untagged_field_shifts_the_columns :
  printMap images_by_key
  = {| header := [[CString "key"; CString "name"]];
       rows := [[CValue (str "a"); CValue (str "6e83")]] |}
  /\ printStruct (fun s => s) (image "6e83" "create")
     = {| header := []; rows := [[CString "name"; CValue (str "create")]] |}.
Proof. split; vm_compute; reflexivity. Qed.

End TableRuns.

(** ** The project file *)
Section ConfigProperties.
Import config.
Context {Bytes : Type}.
Implicit Types (os : OS Bytes) (fs : gmap string Bytes) (p : Config).

Lemma is_empty_spec (s : string) : is_empty s = true <-> s = ""%string.
Proof. unfold is_empty. apply String.eqb_eq. Qed.

(** [ToFile] changes no file but nitric.yaml of the config's directory. *)
Lemma ToFile_other_files os p fs (path : string) :
  path <> Join os (Dir p) "nitric.yaml" ->
  fst (ToFile os p fs) !! path = fs !! path.
Proof.
  intros Hpath. unfold ToFile, WriteFile.
  destruct (is_empty (Dir p) || is_empty (Name p)); [reflexivity|].
  destruct (Marshal os p) as [data|err]; [|reflexivity].
  destruct (write_error os _) as [err|]; [reflexivity|].
  simpl. now rewrite lookup_insert_ne.
Qed.

(** X14: [ToFile] refuses a config without a directory or a name, with
    the error "fields Dir and Name must be provided" and without touching
    the file system.  In every case it leaves all files but nitric.yaml of
    the config's directory as they were, and when it returns nil that
    file holds the marshalled config. *)
Theorem ToFile_writes_nitric_yaml_only os p fs :
  (Dir p = ""%string \/ Name p = ""%string ->
   ToFile os p fs
   = (fs, Some (errors_New "fields Dir and Name must be provided")))
  /\ (forall path, path <> Join os (Dir p) "nitric.yaml" ->
                   fst (ToFile os p fs) !! path = fs !! path)
  /\ (snd (ToFile os p fs) = None ->
      Dir p <> ""%string /\ Name p <> ""%string
      /\ exists data,
           Marshal os p = inl data
           /\ fst (ToFile os p fs) !! Join os (Dir p) "nitric.yaml" = Some data).
Proof.
  split; [|split; [apply ToFile_other_files|]]; unfold ToFile, WriteFile.
  - intros [Hd|Hn].
    + apply is_empty_spec in Hd. now rewrite Hd.
    + apply is_empty_spec in Hn. rewrite Hn. now rewrite orb_true_r.
  - destruct (is_empty (Dir p)) eqn:Hd; [discriminate|].
    destruct (is_empty (Name p)) eqn:Hn; [discriminate|]. simpl.
    assert (Hdir : Dir p <> ""%string)
      by (intros Heq; apply is_empty_spec in Heq; congruence).
    assert (Hname : Name p <> ""%string)
      by (intros Heq; apply is_empty_spec in Heq; congruence).
    destruct (Marshal os p) as [data|err]; [|discriminate].
    destruct (write_error os _) as [err|]; [discriminate|].
    intros _. split; [exact Hdir | split; [exact Hname|]].
    exists data. split; [reflexivity | apply lookup_insert_eq].
Qed.

Lemma Base_not_empty (path : string) : filepath.Base path <> ""%string.
Proof.
  unfold filepath.Base. destruct path as [|c path]; [discriminate|].
  destruct (filepath.last_element _ _); discriminate.
Qed.

(** What [FromFile] does when it cannot read the file. *)
Lemma FromFile_unreadable os fs (wd absDir : string) (err : error) :
  Getwd os = inl wd ->
  Abs os wd = inl absDir ->
  ReadFile os fs (Join os wd "nitric.yaml") = inr err ->
  FromFile os fs
  = (fst (ToFile os (generated absDir) fs),
     (Some (generated absDir), snd (ToFile os (generated absDir) fs))).
Proof.
  intros Hwd Habs Hread. unfold FromFile. rewrite Hwd, Habs, Hread.
  now destruct (ToFile os (generated absDir) fs).
Qed.

(** The generated config has its fields: writing it is marshalling it
    and writing the bytes. *)
Lemma ToFile_generated os fs (absDir : string) :
  absDir <> ""%string ->
  ToFile os (generated absDir) fs
  = match Marshal os (generated absDir) with
    | inr e => (fs, Some e)
    | inl data => WriteFile os fs (Join os absDir "nitric.yaml") data
    end.
Proof.
  intros Hdir. unfold ToFile. simpl.
  destruct (is_empty absDir) eqn:Hd.
  { apply is_empty_spec in Hd. contradiction. }
  destruct (is_empty (filepath.Base absDir)) eqn:Hn.
  { apply is_empty_spec in Hn. now destruct (Base_not_empty absDir). }
  reflexivity.
Qed.

(** X15: in a directory whose nitric.yaml cannot be read, [FromFile]
    generates the config: named after the last element of the directory,
    with the three default handler globs; it returns that config together
    with whatever writing it gave, also when the write failed.  The
    generated name is never empty, so with a non-empty directory the
    write is never refused for missing fields: the only errors are the
    marshaller's and the file system's. *)
Theorem FromFile_generates_the_config os fs (wd absDir : string) (err : error) :
  Getwd os = inl wd ->
  Abs os wd = inl absDir ->
  ReadFile os fs (Join os wd "nitric.yaml") = inr err ->
  FromFile os fs
  = (fst (ToFile os (generated absDir) fs),
     (Some (generated absDir), snd (ToFile os (generated absDir) fs)))
  /\ (absDir <> ""%string ->
      ToFile os (generated absDir) fs
      = match Marshal os (generated absDir) with
        | inr e => (fs, Some e)
        | inl data => WriteFile os fs (Join os absDir "nitric.yaml") data
        end).
Proof.
  intros Hwd Habs Hread. split.
  - now apply (FromFile_unreadable os fs wd absDir err).
  - apply ToFile_generated.
Qed.

(** X16: what [FromFile] generates is what it reads back.  When the
    directory has no nitric.yaml, nothing refuses the read or the write,
    and the yaml of the generated config unmarshals to its name and
    handlers, [FromFile] writes the file and returns the generated
    config; called again it returns the same config and writes nothing. *)
Theorem FromFile_reads_back_what_it_generated
    os fs (wd absDir : string) (data : Bytes) :
  Getwd os = inl wd ->
  Abs os wd = inl absDir ->
  absDir <> ""%string ->
  Join os absDir "nitric.yaml" = Join os wd "nitric.yaml" ->
  fs !! Join os wd "nitric.yaml" = None ->
  read_error os (Join os wd "nitric.yaml") = None ->
  write_error os (Join os wd "nitric.yaml") = None ->
  Marshal os (generated absDir) = inl data ->
  (forall p0, Unmarshal os data p0
              = inl {| Name := Name (generated absDir); Dir := Dir p0;
                       Handlers := Handlers (generated absDir) |}) ->
  let fs' := <[ Join os wd "nitric.yaml" := data ]> fs in
  FromFile os fs = (fs', (Some (generated absDir), None))
  /\ FromFile os fs' = (fs', (Some (generated absDir), None)).
Proof.
  intros Hwd Habs Hdir Hjoin Hmissing Hread Hwrite Hmarshal Hyaml fs'.
  split.
  - rewrite (FromFile_unreadable os fs wd absDir
               (not_exist os (Join os wd "nitric.yaml")) Hwd Habs)
      by (unfold ReadFile; now rewrite Hread, Hmissing).
    rewrite (ToFile_generated os fs absDir Hdir), Hmarshal. unfold WriteFile.
    rewrite Hjoin, Hwrite. reflexivity.
  - unfold FromFile, ReadFile. rewrite Hwd, Habs, Hread.
    unfold fs'. rewrite lookup_insert_eq, Hyaml. reflexivity.
Qed.

(** X17: [FromFile] writes only when it could not read: with a readable
    nitric.yaml the file system is left as it is, and the config returned
    is the unmarshalled one, or none with the unmarshalling error.  In
    every case all files but nitric.yaml of the directory are as they
    were. *)
Theorem FromFile_writes_only_when_it_cannot_read os fs :
  (forall wd yamlFile,
     Getwd os = inl wd ->
     ReadFile os fs (Join os wd "nitric.yaml") = inl yamlFile ->
     fst (FromFile os fs) = fs)
  /\ (forall wd absDir path,
        Getwd os = inl wd -> Abs os wd = inl absDir ->
        path <> Join os absDir "nitric.yaml" ->
        fst (FromFile os fs) !! path = fs !! path)
  /\ (forall e, Getwd os = inr e -> FromFile os fs = (fs, (None, Some e))).
Proof.
  split; [|split].
  - intros wd yamlFile Hwd Hread. unfold FromFile. rewrite Hwd.
    destruct (Abs os wd) as [absDir|e]; [|reflexivity].
    rewrite Hread. now destruct (Unmarshal os yamlFile _).
  - intros wd absDir path Hwd Habs Hpath. unfold FromFile. rewrite Hwd, Habs.
    destruct (ReadFile os fs _) as [yamlFile|e].
    + now destruct (Unmarshal os yamlFile _).
    + pose proof (ToFile_other_files os (generated absDir) fs path Hpath)
        as Hframe.
      destruct (ToFile os (generated absDir) fs). exact Hframe.
  - intros e Hwd. unfold FromFile. now rewrite Hwd.
Qed.

End ConfigProperties.

Section ConfigRuns.
Import config.

Lemma FromFile_generates_the_config_run :
  Getwd plain = inl "/src/shop"%string
  /\ FromFile plain ∅
     = ({[ "/src/shop/nitric.yaml"%string
           := ("shop"%string,
               ["functions/*.ts"%string; "functions/*.js"%string;
                "functions/*/*.go"%string]) ]},
        (Some (generated "/src/shop"), None)).
Proof.
  split; [reflexivity|].
  assert (Hread : ReadFile plain ∅ (Join plain "/src/shop" "nitric.yaml")
                  = inr (not_exist plain "/src/shop/nitric.yaml"))
    by (unfold ReadFile; simpl; now rewrite lookup_empty).
  rewrite (proj1 (FromFile_generates_the_config plain ∅ "/src/shop" "/src/shop"
                    (not_exist plain "/src/shop/nitric.yaml")
                    eq_refl eq_refl Hread)).
  vm_compute. reflexivity.
Defined.

Lemma FromFile_reads_back_what_it_generated_run :
  Getwd plain = inl "/src/shop"%string
  /\ FromFile plain (fst (FromFile plain ∅))
     = (fst (FromFile plain ∅), (Some (generated "/src/shop"), None)).
Proof.
  split; [reflexivity|].
  destruct (FromFile_reads_back_what_it_generated plain ∅ "/src/shop" "/src/shop"
              ("shop"%string,
               ["functions/*.ts"%string; "functions/*.js"%string;
                "functions/*/*.go"%string])
              eq_refl eq_refl) as [Hfirst Hsecond].
  - discriminate.
  - reflexivity.
  - apply lookup_empty.
  - reflexivity.
  - reflexivity.
  - reflexivity.
  - intros p0. reflexivity.
  - rewrite Hfirst. exact Hsecond.
Defined.

End ConfigRuns.

(** ** The deployment command *)
Section DeploymentProperties.
Import build deployment.

(** When [Create] returns nil the image of every unit was built. *)
Lemma Create_nil_builds_every_image env s t fs :
  snd (Create env s t fs) = Returned None ->
  built_tags (fst (Create env s t fs)) = unit_tags env s t.
Proof.
  unfold Create. rewrite call_ends. cbn [fst snd].
  rewrite run_deferred_built_tags.
  unfold Create_body, bind, attempt, unit_tags.
  destruct (Discover env) as [[cr|err]|]; [| discriminate ..].
  destruct (range (Functions s) _ tt (start fs)) as [st r] eqn:Hfun.
  destruct (range_builds_a_prefix _ _ _ _ _ _
              (Create_function_builds_its_image env cr s t) Hfun)
    as (n & Hn & Hr).
  change (built_tags (start fs)) with (@nil string) in Hn. simpl in Hn.
  destruct r as [[]|err|]; [| discriminate ..].
  destruct Hr as [-> _].
  rewrite firstn_all2 in Hn by (rewrite length_map; lia).
  destruct (range (Containers s) _ tt st) as [st' r'] eqn:Hcon.
  destruct (range_builds_a_prefix _ _ _ _ _ _
              (Create_container_builds_its_image env cr s t) Hcon)
    as (m & Hm & Hr').
  destruct r' as [[]|err|]; [| discriminate ..].
  destruct Hr' as [-> _]. intros _.
  rewrite firstn_all2 in Hm by (rewrite length_map; lia).
  simpl. now rewrite Hm, Hn.
Qed.

(** X18: [deployment apply] deploys only what it built.  When the run
    comes to [Apply], it is under the deployment name, on the provider
    made for the stack and the target of the options, after [Create]
    returned nil for that same stack and target: the image of every
    function and container was built, and no descriptor is left in the
    project directory.  The run ends as [Apply] does. *)
Theorem deploymentApply_applies_after_the_build
    pk env (deploymentName : string) (args : list string) fs (name : string) :
  applied (deploymentApply pk env deploymentName args fs) = Some name ->
  name = deploymentName
  /\ exists s t p st,
       target_FromOptions pk = inl t
       /\ stack_of pk args = inl s
       /\ NewProvider pk s t = inl p
       /\ Create env s t fs = (st, Returned None)
       /\ built (deploymentApply pk env deploymentName args fs) = Some (s, t, st)
       /\ built_tags st = unit_tags env s t
       /\ files st = fs ∖ list_to_set (created st)
       /\ ending (deploymentApply pk env deploymentName args fs)
          = match Apply p deploymentName with
            | Some err => Exit err
            | None => Done
            end.
Proof.
  unfold deploymentApply.
  destruct (target_FromOptions pk) as [t|err] eqn:Ht; [|discriminate].
  destruct (stack_of pk args) as [s|err] eqn:Hs; [|discriminate].
  destruct (NewProvider pk s t) as [p|err] eqn:Hp; [|discriminate].
  pose proof (Create_nil_builds_every_image env s t fs) as Hall.
  pose proof (Create_removes_closed_descriptors env s t fs) as Hfiles.
  destruct (Create env s t fs) as [st [[err|]|]] eqn:Hc; simpl; try discriminate.
  intros [= <-]. split; [reflexivity|].
  exists s, t, p, st. simpl in Hall, Hfiles.
  specialize (Hfiles (or_intror eq_refl)).
  split; [reflexivity|]. split; [reflexivity|]. split; [exact Hp|].
  split; [exact Hc|]. split; [reflexivity|].
  split; [now apply Hall|]. split; [exact Hfiles | reflexivity].
Qed.

(** X19: the handler globs of the command line are a fallback.  Two runs
    that differ only in what [stack.FromGlobArgs] and
    [codeconfig.Populate] would answer end alike when [stack.FromOptions]
    gives a stack, whatever the arguments, and when there are no
    arguments: the globs are read, and the configuration gathered from
    the code, only after [stack.FromOptions] failed. *)
Theorem deploymentApply_globs_are_a_fallback
    pk pk' env (deploymentName : string) (args : list string) fs :
  target_FromOptions pk' = target_FromOptions pk ->
  stack_FromOptions pk' = stack_FromOptions pk ->
  NewProvider pk' = NewProvider pk ->
  (exists s, stack_FromOptions pk = inl s) \/ args = [] ->
  deploymentApply pk' env deploymentName args fs
  = deploymentApply pk env deploymentName args fs
  /\ stack_of pk args = stack_FromOptions pk.
Proof.
  intros Ht Hs Hp Hwhen.
  assert (Hstack : stack_of pk args = stack_FromOptions pk
                   /\ stack_of pk' args = stack_FromOptions pk).
  { unfold stack_of. rewrite Hs.
    destruct Hwhen as [[s ->] | ->]; [now split|].
    destruct (stack_FromOptions pk); now split. }
  destruct Hstack as [Hpk Hpk'].
  split; [|exact Hpk].
  unfold deploymentApply. now rewrite Ht, Hp, Hpk, Hpk'.
Qed.

End DeploymentProperties.

Section DeploymentRuns.
Import build deployment.

Lemma deploymentApply_applies_after_the_build_run :
  applied (deploymentApply shop_packages (shop.env [] []) "dep" [] ∅) = Some "dep"%string
  /\ exists st,
       built (deploymentApply shop_packages (shop.env [] []) "dep" [] ∅)
       = Some (shop.project, shop.aws, st)
       /\ built_tags st
          = ["shop-orders-aws"; "shop-billing-aws"; "shop-audit-aws";
             "shop-proxy-aws"]%string.
Proof.
  assert (Happlied :
    applied (deploymentApply shop_packages (shop.env [] []) "dep" [] ∅)
    = Some "dep"%string) by (vm_compute; reflexivity).
  split; [exact Happlied|].
  destruct (deploymentApply_applies_after_the_build _ _ _ _ _ _ Happlied)
    as (_ & s & t & p & st & Ht & Hs & _ & _ & Hbuilt & Htags & _).
  injection Ht as <-. injection Hs as <-.
  exists st. split; [exact Hbuilt | exact Htags].
Defined.

(** With a stack from the options the globs are not looked at: the run
    is the same with packages that would find the handlers. *)
Lemma deploymentApply_globs_are_a_fallback_run :
  deploymentApply
    {| target_FromOptions := inl shop.aws;
       stack_FromOptions := inl shop.project;
       stack_FromGlobArgs _ := inl shop.project;
       Populate s := inr (errors_New "no handler answered");
       NewProvider := NewProvider shop_packages |}
    (shop.env [] []) "dep" ["functions/*.ts"%string] ∅
  = deploymentApply shop_packages (shop.env [] []) "dep"
      ["functions/*.ts"%string] ∅.
Proof.
  apply (deploymentApply_globs_are_a_fallback shop_packages);
    [reflexivity | reflexivity | reflexivity |].
  left. exists shop.project. reflexivity.
Defined.

End DeploymentRuns.
